(** * SocialGenius: the image-composition core of [App.tsx]

    A shallow embedding of the two client-side image components of the
    application, [ImageCropper] (fixed-ratio crop selection and its
    rasterisation) and [ImageEditor] (text overlay on a canvas), together
    with the constants they read ([PLATFORM_CONFIG], [FONTS]).

    Conventions of the embedding.
    - The numbers of [ImageCropper] (the selection, the ratio, the pointer
      and the pixel region) are IEEE 754 doubles, with their rounding, their
      infinities and [NaN]; a number handed to the canvas is read there as
      the real it stands for.
    - The numbers of [ImageEditor], all products and quotients of integers,
      are exact rationals ([Q]); the module [Binary64] replays its font
      scenario on doubles.
    - A React component is its state record and one function per handler;
      a state setter is the new record.  A handler reads the constants of
      the render that created it; for the cropper, whose handlers depend on
      them, the state held by React and the state last rendered are kept
      apart.
    - A canvas is an abstract raster surface: its dimensions, the state of
      its 2D context and the list of drawing calls issued since the bitmap
      was last cleared, each with the context state it was issued under.
      An exported data URL is the snapshot of such a surface. *)

From Stdlib Require Import QArith Qminmax Qround ZArith Lia Lqa.
From Stdlib Require Import List String Ascii Bool Floats.
Import ListNotations.

Local Open Scope Q_scope.

(** ** Module constants of [App.tsx] *)

Inductive Platform := LinkedIn | Twitter | Instagram | Facebook | Email.

(** [PLATFORM_CONFIG[p].numericRatio] *)
Definition numericRatio (p : Platform) : float :=
  match p with
  | LinkedIn => 16 / 9
  | Twitter => 16 / 9
  | Instagram => 1
  | Facebook => 16 / 9
  | Email => 16 / 9
  end%float.

Record FontEntry := mkFont {
  name : string;
  family : string;
  weight : option string   (* an absent property reads [undefined] *)
}.

Definition FONTS : list FontEntry :=
  [ mkFont "Sans" "'Inter', sans-serif" None;
    mkFont "Serif" "'Playfair Display', serif" None;
    mkFont "Mono" "'Inter Tight', monospace" None;
    mkFont "Display" "'Inter', sans-serif" (Some "900") ]%string.

(** ** The 2D canvas, as far as the two components use it *)

Module Canvas2D.

Record HTMLImageElement := mkImage {
  src : string;
  naturalWidth : Z;
  naturalHeight : Z
}.

Record CssFont := mkCssFont {
  font_weight : string;
  font_size_px : Q;
  font_family : string
}.

Record ContextState := mkContext {
  fillStyle : string;
  font : CssFont;
  textAlign : string;
  shadowColor : string;
  shadowBlur : Q
}.

(** The state of a context that was just created or reset. *)
Definition default_context : ContextState :=
  {| fillStyle := "#000000";
     font := mkCssFont "normal" 10 "sans-serif";
     textAlign := "start";
     shadowColor := "rgba(0, 0, 0, 0)";
     shadowBlur := 0 |}.

Inductive DrawCall :=
| DrawImage (img : HTMLImageElement) (dx dy : Q)
| DrawImageRegion (img : HTMLImageElement) (sx sy sw sh dx dy dw dh : Q)
| FillText (text : string) (tx ty : Q).

Record Canvas := mkCanvas {
  width : Z;
  height : Z;
  context : ContextState;
  drawn : list (ContextState * DrawCall)
}.

(** [document.createElement('canvas')] *)
Definition createElement : Canvas := mkCanvas 300 150 default_context [].

(** A number stored into an [unsigned long] attribute is truncated toward
    zero and reduced modulo 2^32; the reflected attribute falls back to
    its default above 2^31 - 1. *)
Definition IntegerPart (v : Q) : Z := Z.quot (Qnum v) (Zpos (Qden v)).

Definition ToUnsignedLong (v : Q) : Z := (IntegerPart v mod 2 ^ 32)%Z.

Definition reflected (default : Z) (v : Q) : Z :=
  let n := ToUnsignedLong v in
  if (n <=? 2147483647)%Z then n else default.

(** [canvas.width = v] and [canvas.height = v]: assigning a dimension,
    even to its current value, clears the bitmap and resets the context. *)
Definition set_width (v : Q) (c : Canvas) : Canvas :=
  mkCanvas (reflected 300 v) (height c) default_context [].

Definition set_height (v : Q) (c : Canvas) : Canvas :=
  mkCanvas (width c) (reflected 150 v) default_context [].

Definition with_context (f : ContextState -> ContextState) (c : Canvas) : Canvas :=
  mkCanvas (width c) (height c) (f (context c)) (drawn c).

Definition set_fillStyle (v : string) : Canvas -> Canvas :=
  with_context (fun s => mkContext v (font s) (textAlign s) (shadowColor s) (shadowBlur s)).

Definition set_font (v : CssFont) : Canvas -> Canvas :=
  with_context (fun s => mkContext (fillStyle s) v (textAlign s) (shadowColor s) (shadowBlur s)).

Definition set_textAlign (v : string) : Canvas -> Canvas :=
  with_context (fun s => mkContext (fillStyle s) (font s) v (shadowColor s) (shadowBlur s)).

Definition set_shadowColor (v : string) : Canvas -> Canvas :=
  with_context (fun s => mkContext (fillStyle s) (font s) (textAlign s) v (shadowBlur s)).

Definition set_shadowBlur (v : Q) : Canvas -> Canvas :=
  with_context (fun s => mkContext (fillStyle s) (font s) (textAlign s) (shadowColor s) v).

Definition issue (d : DrawCall) (c : Canvas) : Canvas :=
  mkCanvas (width c) (height c) (context c) (drawn c ++ [(context c, d)]).

Definition drawImage (img : HTMLImageElement) (dx dy : Q) : Canvas -> Canvas :=
  issue (DrawImage img dx dy).

Definition drawImageRegion (img : HTMLImageElement)
    (sx sy sw sh dx dy dw dh : Q) : Canvas -> Canvas :=
  issue (DrawImageRegion img sx sy sw sh dx dy dw dh).

Definition fillText (text : string) (tx ty : Q) : Canvas -> Canvas :=
  issue (FillText text tx ty).

(** [canvas.toDataURL()]: the encoded picture, kept as what it shows. *)
Record DataURL := mkDataURL {
  url_width : Z;
  url_height : Z;
  url_content : list (ContextState * DrawCall)
}.

Definition toDataURL (c : Canvas) : DataURL :=
  mkDataURL (width c) (height c) (drawn c).

End Canvas2D.

(** [Math.round] *)
Definition Math_round (v : Q) : Z := Qfloor (v + 1 / 2).

(** What a handler leaves behind: a value passed to the caller's callback,
    a plain return without any callback, or an error raised to the caller. *)
Inductive ErrorKind := InvalidInput | RenderError.

Inductive Outcome (A : Type) :=
| Delivered (a : A)
| Returned
| Raised (e : ErrorKind).
Arguments Delivered {A} a.
Arguments Returned {A}.
Arguments Raised {A} e.

(** ** The numbers of [ImageCropper]: IEEE 754 doubles *)

(** [Math.max] and [Math.min]: [NaN] as soon as an argument is [NaN]; of the
    two zeros, [+0] is the larger. *)
Definition Math_max (a b : float) : float :=
  if is_nan a || is_nan b then nan
  else if (a <? b)%float then b
  else if (b <? a)%float then a
  else match classify a with NZero => b | _ => a end.

Definition Math_min (a b : float) : float :=
  if is_nan a || is_nan b then nan
  else if (a <? b)%float then a
  else if (b <? a)%float then b
  else match classify a with PZero => b | _ => a end.

(** [Number.isFinite] *)
Definition isFinite (f : float) : bool :=
  match Prim2SF f with
  | S754_zero _ | S754_finite _ _ _ => true
  | _ => false
  end.

(** The real number a finite double stands for; an unsigned long attribute
    and the drawing calls take [NaN] and the infinities apart before they
    read a value, here they read as 0. *)
Definition value (f : float) : Q :=
  match Prim2SF f with
  | S754_finite s m e => Qred (inject_Z (cond_Zopp s (Zpos m)) * 2 ^ e)
  | _ => 0
  end.

(** An integer attribute of the DOM read as a number. *)
Definition of_Z (n : Z) : float := SF2Prim (binary_normalize prec emax n 0 false).

(** ** [ImageCropper] *)

Module ImageCropper.

Local Open Scope float_scope.

Record Crop := mkCrop { x : float; y : float; width : float }.   (* in percentages *)

Record State := mkState { crop : Crop; isDragging : bool }.

Record DOMRect := mkRect {
  left : float;
  top : float;
  rect_width : float;
  rect_height : float
}.

Record MouseEvent := mkMouse { clientX : float; clientY : float }.

Definition initialCrop : Crop := mkCrop 10 10 80.

(** Mounting the component, which the specification calls [beginCrop]:
    [useState({ x: 10, y: 10, width: 80 })] and [useState(false)].  Neither
    prop is inspected. *)
Definition beginCrop (imageUrl : string) (targetRatio : float) : Outcome State :=
  Delivered (mkState (mkCrop 10 10 80) false).

(** The updater given to [setCrop] in [handleMouseMove], which the
    specification calls [updateSelection]; [px] and [py] are the pointer's
    position in percent of the container.  [clampedHeight] is a constant of
    the render the handler was created in, not recomputed from [prev]. *)
Definition updateSelection (clampedHeight px py : float) (prev : Crop) : Crop :=
  {| x := Math_max 0 (Math_min (px - width prev / 2) (100 - width prev));
     y := Math_max 0 (Math_min (py - clampedHeight / 2) (100 - clampedHeight));
     width := width prev |}.

(** [ctx.drawImage(img, sx, sy, sw, sh, dx, dy, dw, dh)]: nothing is drawn
    when an argument is not finite or the source rectangle is empty. *)
Definition drawImage (img : Canvas2D.HTMLImageElement)
    (sx sy sw sh dx dy dw dh : float) (canvas : Canvas2D.Canvas) : Canvas2D.Canvas :=
  if forallb isFinite [sx; sy; sw; sh; dx; dy; dw; dh] then
    if (sw =? 0) || (sh =? 0) then canvas
    else
      Canvas2D.drawImageRegion img (value sx) (value sy) (value sw) (value sh)
        (value dx) (value dy) (value dw) (value dh) canvas
  else canvas.

Section Derived.
Variable targetRatio : float.

Definition height (c : Crop) : float := width c / targetRatio.

Definition clampedHeight (c : Crop) : float := Math_min (height c) (100 - y c).

Definition clampedWidth (c : Crop) : float := clampedHeight c * targetRatio.

(** [handleMouseMove] as created by the render that showed [rendered]:
    [isDragging] and [clampedHeight] are the constants of that render, while
    the updater runs on the selection of the moment, the one of [s]. *)
Definition handleMouseMove (rendered : State) (containerRef : option DOMRect)
    (e : MouseEvent) (s : State) : State :=
  match isDragging rendered, containerRef with
  | true, Some rect =>
      let px := ((clientX e - left rect) / rect_width rect) * 100 in
      let py := ((clientY e - top rect) / rect_height rect) * 100 in
      mkState (updateSelection (clampedHeight (crop rendered)) px py (crop s))
        (isDragging s)
  | _, _ => s
  end.

(** [applyCrop] as created by the render that showed the selection [c]:
    [imageRef] is what the ref of the [<img>] element holds, [ctx] tells
    whether [getContext('2d')] gave a context. *)
Definition applyCrop (imageRef : option Canvas2D.HTMLImageElement) (ctx : bool)
    (c : Crop) : Outcome Canvas2D.DataURL :=
  match imageRef with
  | None => Returned
  | Some img =>
      let canvas := Canvas2D.createElement in
      if negb ctx then Returned
      else
        let sourceX := (x c / 100) * of_Z (Canvas2D.naturalWidth img) in
        let sourceY := (y c / 100) * of_Z (Canvas2D.naturalHeight img) in
        let sourceWidth := (clampedWidth c / 100) * of_Z (Canvas2D.naturalWidth img) in
        let sourceHeight := (clampedHeight c / 100) * of_Z (Canvas2D.naturalHeight img) in
        let canvas := Canvas2D.set_width (value sourceWidth) canvas in
        let canvas := Canvas2D.set_height (value sourceHeight) canvas in
        let canvas :=
          drawImage img sourceX sourceY sourceWidth sourceHeight
            0 0 sourceWidth sourceHeight canvas in
        Delivered (Canvas2D.toDataURL canvas)
  end.

(** The mounted component between two events: [current] is the state React
    holds, [rendered] the state of the last render, whose handlers are the
    ones installed. *)
Record Mounted := mkMounted { current : State; rendered : State }.

(** The four mouse handlers of the container and a re-render; a move
    carries what [containerRef.current] holds and the event. *)
Inductive Event :=
| MouseDown
| MouseUp
| MouseLeave
| MouseMove (containerRef : option DOMRect) (e : MouseEvent)
| Render.

Definition dispatch (m : Mounted) (ev : Event) : Mounted :=
  match ev with
  | MouseDown => mkMounted (mkState (crop (current m)) true) (rendered m)
  | MouseUp => mkMounted (mkState (crop (current m)) false) (rendered m)
  | MouseLeave => mkMounted (mkState (crop (current m)) false) (rendered m)
  | MouseMove containerRef e =>
      mkMounted (handleMouseMove (rendered m) containerRef e (current m)) (rendered m)
  | Render => mkMounted (current m) (current m)
  end.

Definition run (events : list Event) (m : Mounted) : Mounted :=
  fold_left dispatch events m.

End Derived.

(** The component as mounted and first rendered. *)
Definition mounted : Mounted :=
  mkMounted (mkState initialCrop false) (mkState initialCrop false).

End ImageCropper.

(** ** [ImageEditor] *)

Module ImageEditor.

Record State := mkState {
  text : string;
  font : FontEntry;
  color : string;
  fontSize : Z;
  positionY : Z
}.

(** The five [useState] defaults; [FONTS[0]] is the first entry. *)
Definition initialState : State :=
  {| text := "";
     font := nth 0 FONTS (mkFont "" "" None);
     color := "#FFFFFF";
     fontSize := 32;
     positionY := 50 |}.

Definition setText (v : string) (s : State) : State :=
  mkState v (font s) (color s) (fontSize s) (positionY s).

Definition setFont (f : FontEntry) (s : State) : State :=
  mkState (text s) f (color s) (fontSize s) (positionY s).

(** [font.weight || '700']: an absent or empty weight is falsy. *)
Definition weight_or (default : string) (w : option string) : string :=
  match w with
  | None => default
  | Some EmptyString => default
  | Some v => v
  end.

(** The body of [img.onload]; an [Image] outside the document reports its
    natural size as [img.width] and [img.height]. *)
Definition onload (s : State) (img : Canvas2D.HTMLImageElement)
    (canvas : Canvas2D.Canvas) : Canvas2D.Canvas :=
  let img_width := inject_Z (Canvas2D.naturalWidth img) in
  let img_height := inject_Z (Canvas2D.naturalHeight img) in
  let canvas := Canvas2D.set_width img_width canvas in
  let canvas := Canvas2D.set_height img_height canvas in
  let canvas := Canvas2D.drawImage img 0 0 canvas in
  match text s with
  | EmptyString => canvas
  | _ =>
      let canvas := Canvas2D.set_fillStyle (color s) canvas in
      let canvas :=
        Canvas2D.set_font
          (Canvas2D.mkCssFont (weight_or "700" (weight (font s)))
             (inject_Z (fontSize s) * (img_width / 500))
             (family (font s)))
          canvas in
      let canvas := Canvas2D.set_textAlign "center" canvas in
      let canvas := Canvas2D.set_shadowColor "rgba(0,0,0,0.5)" canvas in
      let canvas := Canvas2D.set_shadowBlur 10 canvas in
      Canvas2D.fillText (text s)
        (inject_Z (Canvas2D.width canvas) / 2)
        ((inject_Z (Canvas2D.height canvas) * inject_Z (positionY s)) / 100)
        canvas
  end.

(** The effect, which the specification calls [render]: [canvasRef] is what
    the ref of the [<canvas>] holds, [ctx] tells whether [getContext('2d')]
    gave a context, [loaded] is the image once it has loaded ([None] when
    [onload] never fires).  The result is what the ref holds afterwards. *)
Definition render (canvasRef : option Canvas2D.Canvas) (ctx : bool)
    (loaded : option Canvas2D.HTMLImageElement) (s : State)
    : option Canvas2D.Canvas :=
  match canvasRef with
  | None => None
  | Some canvas =>
      if negb ctx then Some canvas
      else
        match loaded with
        | None => Some canvas
        | Some img => Some (onload s img canvas)
        end
  end.

Definition handleSave (canvasRef : option Canvas2D.Canvas) : Outcome Canvas2D.DataURL :=
  match canvasRef with
  | Some canvas => Delivered (Canvas2D.toDataURL canvas)
  | None => Returned
  end.

End ImageEditor.

(** ** The font size on IEEE 754 doubles *)

Module Binary64.

Local Open Scope float_scope.

(** [fontSize * (img.width / 500)] *)
Definition effectivePx (fontSize img_width : float) : float :=
  fontSize * (img_width / 500).

End Binary64.

(** ** [types.ts] *)

Inductive AspectRatio := Ratio_1_1 | Ratio_3_4 | Ratio_4_3 | Ratio_9_16 | Ratio_16_9.

Inductive Rating := up | down.

Record Feedback := mkFeedback { rating : option Rating; comment : option string }.

Definition Platform_eq_dec (a b : Platform) : {a = b} + {a <> b}.
Proof. decide equality. Defined.

(** [PLATFORM_CONFIG[p].ratio] *)
Definition ratio (p : Platform) : AspectRatio :=
  match p with
  | LinkedIn => Ratio_16_9
  | Twitter => Ratio_16_9
  | Instagram => Ratio_1_1
  | Facebook => Ratio_16_9
  | Email => Ratio_16_9
  end.

Module OnboardingData.

Record t := mk {
  businessName : string;
  natureOfBusiness : string;
  targetDemographic : string;
  keyLocation : string;
  brandValues : string;
  selectedPlatforms : list Platform
}.

End OnboardingData.

(** A post of the generator.  Every property may be absent: the handlers
    build posts by spreading an entry that may be [undefined]. *)
Module PostResult.

Record t := mk {
  id : option string;
  platform : option Platform;
  content : option string;
  imageUrl : option string;
  aspectRatio : option AspectRatio;
  loading : option bool;
  error : option string;
  feedback : option Feedback;
  suggestedTime : option string
}.

(** [{}] *)
Definition empty : t := mk None None None None None None None None None.

(** [{ ...o }] for [o] an object or [undefined] *)
Definition spread (o : option t) : t :=
  match o with
  | Some r => r
  | None => empty
  end.

End PostResult.

Module ScheduledPost.

Record t := mk {
  id : string;
  postId : option string;
  platform : option Platform;
  content : option string;
  imageUrl : option string;
  scheduledAt : string
}.

End ScheduledPost.

(** ** [App] *)

Module App.

(** The [results] record: its keys are platform names and it is only ever
    read by key. *)
Definition Results := Platform -> option PostResult.t.

(** [{}] *)
Definition no_results : Results := fun _ => None.

(** [{ ...prev, [p]: v }] *)
Definition assign (prev : Results) (p : Platform) (v : PostResult.t) : Results :=
  fun q => if Platform_eq_dec q p then Some v else prev q.

Inductive View := onboarding | generator | calendar.

Record Profile := mkProfile {
  view : View;
  onboardingData : option OnboardingData.t
}.

(** The state after mounting: [useState] defaults, then the effect that
    reads the saved profile.  [saved] is the parsed item of local storage,
    [None] when there is none; an item is taken to be a profile, as
    [handleOnboardingSubmit] writes it. *)
Definition mount (saved : option OnboardingData.t) : Profile :=
  match saved with
  | Some parsed => mkProfile generator (Some parsed)
  | None => mkProfile onboarding None
  end.

Definition handleOnboardingSubmit (data : OnboardingData.t) (s : Profile) : Profile :=
  mkProfile generator (Some data).

Definition setView (v : View) (s : Profile) : Profile :=
  mkProfile v (onboardingData s).

(** What the user can do to the view: each control acts only where the
    component renders it. *)
Inductive Action :=
| Submit (data : OnboardingData.t)   (* the form of [OnboardingView] *)
| Cancel                             (* its Cancel button *)
| ShowGenerator
| ShowCalendar
| ShowProfile.

Definition act (s : Profile) (a : Action) : Profile :=
  match view s, a with
  | onboarding, Submit data => handleOnboardingSubmit data s
  | onboarding, Cancel =>
      match onboardingData s with
      | Some _ => setView generator s
      | None => s
      end
  | onboarding, _ => s
  | _, ShowGenerator => setView generator s
  | _, ShowCalendar => setView calendar s
  | _, ShowProfile => setView onboarding s
  | _, _ => s
  end.

Definition activePlatforms (onboardingData : option OnboardingData.t) : list Platform :=
  match onboardingData with
  | None => []
  | Some d => OnboardingData.selectedPlatforms d
  end.

(** The [forEach] that fills [initialResults] in [generateContent];
    [random n] is the identifier drawn at the [n]-th call. *)
Fixpoint fill_initialResults (platforms : list Platform) (random : nat -> string)
    (n : nat) (initialResults : Results) : Results :=
  match platforms with
  | [] => initialResults
  | p :: rest =>
      fill_initialResults rest random (S n)
        (assign initialResults p
           (PostResult.mk (Some (random n)) (Some p) (Some ""%string) None
              (Some (ratio p)) (Some true) None None None))
  end.

(** [generateContent] up to [setResults(initialResults)]: the new [results],
    or [None] when the guard returns first.  [blank] tells whether
    [idea.trim()] is empty. *)
Definition generateContent_begin (blank : bool)
    (onboardingData : option OnboardingData.t) (random : nat -> string)
    : option Results :=
  match blank, onboardingData with
  | false, Some _ =>
      Some (fill_initialResults (activePlatforms onboardingData) random 0 no_results)
  | _, _ => None
  end.

(** How the two requests of one platform end. *)
Inductive Settled :=
| Fulfilled (text suggestedTime image : string)
| Rejected (message : option string).

(** The [setResults] updater run when the requests of platform [p] end. *)
Definition settle (p : Platform) (o : Settled) (prev : Results) : Results :=
  let old := PostResult.spread (prev p) in
  match o with
  | Fulfilled text suggestedTime image =>
      assign prev p
        (PostResult.mk (PostResult.id old) (PostResult.platform old) (Some text)
           (Some image) (PostResult.aspectRatio old) (Some false)
           (PostResult.error old) (PostResult.feedback old) (Some suggestedTime))
  | Rejected message =>
      assign prev p
        (PostResult.mk (PostResult.id old) (PostResult.platform old)
           (PostResult.content old) (PostResult.imageUrl old)
           (PostResult.aspectRatio old) (Some false) message
           (PostResult.feedback old) (PostResult.suggestedTime old))
  end.

Definition handleFeedback (platform : Platform) (feedback : Feedback)
    (prev : Results) : Results :=
  let old := PostResult.spread (prev platform) in
  assign prev platform
    (PostResult.mk (PostResult.id old) (PostResult.platform old)
       (PostResult.content old) (PostResult.imageUrl old)
       (PostResult.aspectRatio old) (PostResult.loading old)
       (PostResult.error old) (Some feedback) (PostResult.suggestedTime old)).

(** The [onContentChange] prop given to the card of platform [p]. *)
Definition onContentChange (p : Platform) (c : string) (prev : Results) : Results :=
  let old := PostResult.spread (prev p) in
  assign prev p
    (PostResult.mk (PostResult.id old) (PostResult.platform old) (Some c)
       (PostResult.imageUrl old) (PostResult.aspectRatio old)
       (PostResult.loading old) (PostResult.error old)
       (PostResult.feedback old) (PostResult.suggestedTime old)).

(** The [onImageUpdated] prop given to the card of platform [p]. *)
Definition onImageUpdated (p : Platform) (newUrl : string) (prev : Results) : Results :=
  let old := PostResult.spread (prev p) in
  assign prev p
    (PostResult.mk (PostResult.id old) (PostResult.platform old)
       (PostResult.content old) (Some newUrl) (PostResult.aspectRatio old)
       (PostResult.loading old) (PostResult.error old)
       (PostResult.feedback old) (PostResult.suggestedTime old)).

Definition handleSyncThisImage (platforms : list Platform) (imageUrl : string)
    (prev : Results) : Results :=
  fold_left
    (fun updated p =>
       match updated p with
       | Some r =>
           assign updated p
             (PostResult.mk (PostResult.id r) (PostResult.platform r)
                (PostResult.content r) (Some imageUrl) (PostResult.aspectRatio r)
                (PostResult.loading r) (PostResult.error r)
                (PostResult.feedback r) (PostResult.suggestedTime r))
       | None => updated
       end)
    platforms prev.

(** [handleSchedule]; [random] is the identifier drawn for the new entry. *)
Definition handleSchedule (post : PostResult.t) (date : string) (random : string)
    (prev : list ScheduledPost.t) : list ScheduledPost.t :=
  prev ++
  [ScheduledPost.mk random (PostResult.id post) (PostResult.platform post)
     (PostResult.content post) (PostResult.imageUrl post) date].

(** The [onSchedule] prop given to the card of platform [p]:
    [results[p] && handleSchedule(results[p]!, d)]. *)
Definition onSchedule (results : Results) (p : Platform) (d : string)
    (random : string) (prev : list ScheduledPost.t) : list ScheduledPost.t :=
  match results p with
  | Some post => handleSchedule post d random prev
  | None => prev
  end.

(** The [onDelete] prop given to [CalendarView]. *)
Definition onDelete (id : string) (prev : list ScheduledPost.t) : list ScheduledPost.t :=
  filter (fun p => negb (String.eqb (ScheduledPost.id p) id)) prev.

(** [str.split(',')] *)
Fixpoint split_comma (s : string) : list string :=
  match s with
  | EmptyString => [EmptyString]
  | String a rest =>
      if Ascii.eqb a ","%char then EmptyString :: split_comma rest
      else
        match split_comma rest with
        | head :: tail => String a head :: tail
        | [] => [String a EmptyString]
        end
  end.

(** [(reader.result as string).split(',')[1]] in [handleGlobalImageUpload];
    [None] is [undefined]. *)
Definition base64String (result : string) : option string :=
  nth_error (split_comma result) 1.

End App.

(** ** [PlatformCard] *)

Module PlatformCard.

(** The Confirm button of the date picker of platform [p]: [val] is the
    value of the date input, and [if (val) onSchedule(val)]. *)
Definition confirmSchedule (results : App.Results) (p : Platform) (val : string)
    (random : string) (prev : list ScheduledPost.t) : list ScheduledPost.t :=
  match val with
  | EmptyString => prev
  | _ => App.onSchedule results p val random prev
  end.

End PlatformCard.

(** ** [OnboardingView] *)

Module OnboardingView.

(** [selectedPlatforms.includes(p)] *)
Definition includes (l : list Platform) (p : Platform) : bool :=
  existsb (fun x => if Platform_eq_dec x p then true else false) l.

(** The selection of the form when there is no profile yet. *)
Definition defaultPlatforms : list Platform := [LinkedIn; Twitter; Instagram].

(** [togglePlatform], on the [selectedPlatforms] of the form. *)
Definition togglePlatform (p : Platform) (selectedPlatforms : list Platform)
    : list Platform :=
  if includes selectedPlatforms p
  then filter (fun x => if Platform_eq_dec x p then false else true) selectedPlatforms
  else selectedPlatforms ++ [p].

End OnboardingView.

(** ** [geminiService.ts]: reading the image out of a response *)

Module geminiService.

Record InlineData := mkInline { mimeType : string; data : string }.

Record Part := mkPart { inlineData : option InlineData; text : option string }.

Record Candidate := mkCandidate {
  parts : option (list Part);          (* [content?.parts] *)
  finishReason : option string
}.

(** The loop over [candidate.content.parts]: the URL of the first part that
    has inline data, or the initial [''] . *)
Fixpoint first_inline (ps : list Part) : string :=
  match ps with
  | [] => ""%string
  | part :: rest =>
      match inlineData part with
      | Some d => ("data:" ++ mimeType d ++ ";base64," ++ data d)%string
      | None => first_inline rest
      end
  end.

(** [candidate?.finishReason || 'Unknown'] *)
Definition reason_of (candidate : option Candidate) : string :=
  match candidate with
  | Some c =>
      match finishReason c with
      | Some EmptyString => "Unknown"%string
      | Some r => r
      | None => "Unknown"%string
      end
  | None => "Unknown"%string
  end.

(** The end of [generateSocialImage], from the response on: the image URL,
    or the message of the error thrown.  [candidate] is
    [response.candidates?.[0]]. *)
Definition imageUrl_of (candidate : option Candidate) : string + string :=
  let imageUrl :=
    match candidate with
    | Some c =>
        match parts c with
        | Some ps => first_inline ps
        | None => ""%string
        end
    | None => ""%string
    end in
  match imageUrl with
  | EmptyString =>
      inr ("The AI service didn't produce an image (Reason: " ++ reason_of candidate
           ++ "). This usually happens when the prompt is too vague or triggers a safety filter. Try describing the scene without using text or logos.")%string
  | _ => inl imageUrl
  end.

End geminiService.

(** ** The specification's vocabulary *)

(** [clamp(v, lo, hi)] as the specification uses it: [v] brought back to the
    nearer bound when it leaves the interval. *)
Definition clamp (v lo hi : float) : float :=
  if (v <? lo)%float then lo
  else if (hi <? v)%float then hi
  else v.

(** The pointer of a move, in percent of the container. *)
Definition pointer_percent (rect : ImageCropper.DOMRect) (e : ImageCropper.MouseEvent)
    : float * float :=
  (((ImageCropper.clientX e - ImageCropper.left rect) / ImageCropper.rect_width rect * 100)%float,
   ((ImageCropper.clientY e - ImageCropper.top rect) / ImageCropper.rect_height rect * 100)%float).

(** An event whose pointer, if it has one, is at finite percentages of the
    container (over a container without area the percentages can be
    infinite or [NaN]). *)
Definition finite_pointer (ev : ImageCropper.Event) : Prop :=
  match ev with
  | ImageCropper.MouseMove (Some rect) e =>
      isFinite (fst (pointer_percent rect e)) = true /\
      isFinite (snd (pointer_percent rect e)) = true
  | _ => True
  end.

(** A selection 80 wide whose corner is a pair of numbers with
    [0 <= x <= 20] and [0 <= y <= limit]. *)
Definition placed (limit : float) (c : ImageCropper.Crop) : Prop :=
  ImageCropper.width c = 80%float /\
  (0 <=? ImageCropper.x c)%float = true /\
  (ImageCropper.x c <=? 20)%float = true /\
  (0 <=? ImageCropper.y c)%float = true /\
  (ImageCropper.y c <=? limit)%float = true.

Definition is_press (ev : ImageCropper.Event) : bool :=
  match ev with
  | ImageCropper.MouseDown => true
  | _ => false
  end.

Definition is_render (ev : ImageCropper.Event) : bool :=
  match ev with
  | ImageCropper.Render => true
  | _ => false
  end.

(** A container 100 by 100 at the origin, on which client coordinates are
    percentages. *)
Definition unit_container : ImageCropper.DOMRect := ImageCropper.mkRect 0 0 100 100.

(** ** Doubles in order

    A double that is not [NaN] is placed on the integers by [key], in units
    of the smallest subnormal, so that the order and the equality of
    doubles are those of their keys; the infinities sit at [huge] and its
    opposite, beyond every finite double. *)

Section OrderOfDoubles.
Local Open Scope Z_scope.

Definition huge : Z := 2 ^ 2098.

Definition key (x : spec_float) : Z :=
  match x with
  | S754_zero _ => 0
  | S754_nan => 0
  | S754_infinity s => cond_Zopp s huge
  | S754_finite s m e => cond_Zopp s (Zpos m * 2 ^ (e + 1074))
  end.

Definition number_like (x : spec_float) : bool :=
  match x with S754_nan => false | _ => true end.

Definition finite_like (x : spec_float) : bool :=
  match x with S754_zero _ | S754_finite _ _ _ => true | _ => false end.

Definition val (f : float) : Z := key (Prim2SF f).

(** The weight of the exponent [e] in a key. *)
Definition sc (e : Z) : Z := 2 ^ (e + 1074).

(** [r] is [M] shifted right by [k] places, its round and sticky bits
    telling whether anything was lost. *)
Record shifted (M k : Z) (r : shr_record) : Prop := {
  shifted_m : shr_m r = M / 2 ^ k;
  shifted_exact : shr_r r || shr_s r = true -> M mod 2 ^ k <> 0
}.

(** The mantissa of a finite double once aligned on the exponent [ez]. *)
Definition aligned_mantissa (s : bool) (m : positive) (e ez : Z) : Z :=
  cond_Zopp s (Zpos (fst (shl_align m e ez))).

End OrderOfDoubles.

(** ** The overlay and the application *)

(** The surface that shows the source picture and nothing else. *)
Definition source_surface (img : Canvas2D.HTMLImageElement) : Canvas2D.Canvas :=
  Canvas2D.mkCanvas (Canvas2D.naturalWidth img) (Canvas2D.naturalHeight img)
    Canvas2D.default_context
    [(Canvas2D.default_context, Canvas2D.DrawImage img 0 0)].

Definition is_text (d : Canvas2D.ContextState * Canvas2D.DrawCall) : bool :=
  match snd d with
  | Canvas2D.FillText _ _ _ => true
  | _ => false
  end.

(** How many texts a surface shows. *)
Definition text_layers (c : Canvas2D.Canvas) : nat :=
  List.length (filter is_text (Canvas2D.drawn c)).

(** An image whose natural size a canvas can take. *)
Definition fits_canvas (img : Canvas2D.HTMLImageElement) : Prop :=
  (0 <= Canvas2D.naturalWidth img <= 2147483647)%Z /\
  (0 <= Canvas2D.naturalHeight img <= 2147483647)%Z.

(** The context left by the five assignments that precede [fillText] in
    [onload]. *)
Definition text_context (s : ImageEditor.State) (img : Canvas2D.HTMLImageElement)
    : Canvas2D.ContextState :=
  Canvas2D.mkContext (ImageEditor.color s)
    (Canvas2D.mkCssFont
       (ImageEditor.weight_or "700" (weight (ImageEditor.font s)))
       (inject_Z (ImageEditor.fontSize s) * (inject_Z (Canvas2D.naturalWidth img) / 500))
       (family (ImageEditor.font s)))
    "center" "rgba(0,0,0,0.5)" 10.

(** Whether a string holds a comma. *)
Fixpoint has_comma (s : string) : bool :=
  match s with
  | EmptyString => false
  | String a rest => Ascii.eqb a ","%char || has_comma rest
  end.

(** Whether a part of a response carries inline data. *)
Definition has_inline (part : geminiService.Part) : bool :=
  match geminiService.inlineData part with
  | Some _ => true
  | None => false
  end.

(** Everything the application does to [results] once a generation has
    started. *)
Inductive ResultsAction :=
| Settle (p : Platform) (o : App.Settled)
| GiveFeedback (p : Platform) (f : Feedback)
| ChangeContent (p : Platform) (c : string)
| UpdateImage (p : Platform) (newUrl : string)
| SyncImage (platforms : list Platform) (imageUrl : string).

Definition apply_action (prev : App.Results) (a : ResultsAction) : App.Results :=
  match a with
  | Settle p o => App.settle p o prev
  | GiveFeedback p f => App.handleFeedback p f prev
  | ChangeContent p c => App.onContentChange p c prev
  | UpdateImage p newUrl => App.onImageUpdated p newUrl prev
  | SyncImage platforms imageUrl => App.handleSyncThisImage platforms imageUrl prev
  end.

(** A post as [generateContent] first files it. *)
Definition pending (p : Platform) (id : string) : PostResult.t :=
  PostResult.mk (Some id) (Some p) (Some ""%string) None (Some (ratio p))
    (Some true) None None None.

(** Two posts that are the same post: same identifier, platform and
    aspect ratio. *)
Definition same_post (a b : PostResult.t) : Prop :=
  PostResult.id a = PostResult.id b /\
  PostResult.platform a = PostResult.platform b /\
  PostResult.aspectRatio a = PostResult.aspectRatio b.

(** A post with its image replaced. *)
Definition with_image (imageUrl : string) (r : PostResult.t) : PostResult.t :=
  PostResult.mk (PostResult.id r) (PostResult.platform r) (PostResult.content r)
    (Some imageUrl) (PostResult.aspectRatio r) (PostResult.loading r)
    (PostResult.error r) (PostResult.feedback r) (PostResult.suggestedTime r).

(** The parts of the first candidate of a response, none when there is no
    candidate or no content. *)
Definition parts_of (candidate : option geminiService.Candidate)
    : list geminiService.Part :=
  match candidate with
  | Some c =>
      match geminiService.parts c with
      | Some ps => ps
      | None => []
      end
  | None => []
  end.

(** One turn of the loop of [handleSyncThisImage]. *)
Definition sync_step (imageUrl : string) (updated : App.Results) (p : Platform)
    : App.Results :=
  match updated p with
  | Some r => App.assign updated p (with_image imageUrl r)
  | None => updated
  end.

(** What the calendar goes through: a confirmed date on the card of a
    platform, under the results of that moment, or a deletion. *)
Inductive CalendarAction :=
| Confirm (results : App.Results) (p : Platform) (val : string) (random : string)
| Delete (id : string).

Definition calendar_step (prev : list ScheduledPost.t) (a : CalendarAction)
    : list ScheduledPost.t :=
  match a with
  | Confirm results p val random => PlatformCard.confirmSchedule results p val random prev
  | Delete id => App.onDelete id prev
  end.

Definition is_confirm (a : CalendarAction) : bool :=
  match a with
  | Confirm _ _ _ _ => true
  | Delete _ => false
  end.

(** ** Re-rendering and failures *)

(** The surface that shows the source picture under the text of a style,
    set as the style says. *)
Definition overlay_surface (s : ImageEditor.State) (img : Canvas2D.HTMLImageElement)
    : Canvas2D.Canvas :=
  Canvas2D.mkCanvas (Canvas2D.naturalWidth img) (Canvas2D.naturalHeight img)
    (text_context s img)
    [(Canvas2D.default_context, Canvas2D.DrawImage img 0 0);
     (text_context s img,
      Canvas2D.FillText (ImageEditor.text s)
        (inject_Z (Canvas2D.naturalWidth img) / 2)
        (inject_Z (Canvas2D.naturalHeight img) * inject_Z (ImageEditor.positionY s) / 100))].

(** What a style shows of an image: the source alone when the text is
    empty, the source under that one text otherwise. *)
Definition styled_surface (s : ImageEditor.State) (img : Canvas2D.HTMLImageElement)
    : Canvas2D.Canvas :=
  match ImageEditor.text s with
  | EmptyString => source_surface img
  | _ => overlay_surface s img
  end.


(** * Properties *)

(** ** Doubles: order, signs and rounding

    The facts about binary64 arithmetic the crop rectangle rests on, from
    the specification of the primitive floats ([SpecFloat]): comparisons of
    numbers are comparisons of keys; a difference, a sum or a quotient is
    [NaN] only in the known cases; and rounding to nearest never carries a
    sum or a difference across a double, so that a bound that is itself a
    double survives the rounding. *)

Section DoublesTheory.
Local Open Scope Z_scope.

(** *** The order of doubles is the order of their keys *)

Lemma digits2_pos_bounds (m : positive) :
  2 ^ (Zpos (digits2_pos m) - 1) <= Zpos m < 2 ^ Zpos (digits2_pos m).
Proof.
  induction m as [p IH | p IH |]; simpl digits2_pos.
  - rewrite Pos2Z.inj_succ.
    replace (Z.succ (Zpos (digits2_pos p)) - 1) with (Z.succ (Zpos (digits2_pos p) - 1)) by lia.
    rewrite !Z.pow_succ_r by lia. lia.
  - rewrite Pos2Z.inj_succ.
    replace (Z.succ (Zpos (digits2_pos p)) - 1) with (Z.succ (Zpos (digits2_pos p) - 1)) by lia.
    rewrite !Z.pow_succ_r by lia. lia.
  - simpl. lia.
Qed.

Lemma valid_finite s m e :
  valid_binary (S754_finite s m e) = true ->
  -1074 <= e <= 971 /\ Zpos (digits2_pos m) <= 53 /\
  (-1074 < e -> Zpos (digits2_pos m) = 53).
Proof.
  unfold SpecFloat.valid_binary, bounded, canonical_mantissa, fexp, SpecFloat.emin.
  change prec with 53. change emax with 1024.
  intros H. apply andb_true_iff in H. destruct H as [H1 H2].
  apply Z.eqb_eq in H1. apply Z.leb_le in H2. lia.
Qed.

Lemma pow_pos_lt a : 0 < 2 ^ a \/ a < 0.
Proof. destruct (Z_lt_le_dec a 0); [right; lia | left; apply Z.pow_pos_nonneg; lia]. Qed.

Lemma finite_magnitude s m e :
  valid_binary (S754_finite s m e) = true ->
  0 < Zpos m * 2 ^ (e + 1074) < huge.
Proof.
  intros H. destruct (valid_finite s m e H) as (He & Hd & _).
  pose proof (digits2_pos_bounds m) as [_ Hm].
  assert (Hp : 0 < 2 ^ (e + 1074)) by (apply Z.pow_pos_nonneg; lia).
  split; [lia |].
  unfold huge.
  apply Z.lt_le_trans with (2 ^ 53 * 2 ^ (e + 1074)).
  - apply Z.mul_lt_mono_pos_r; [exact Hp |].
    apply Z.lt_le_trans with (2 ^ Zpos (digits2_pos m)); [exact Hm |].
    apply Z.pow_le_mono_r; lia.
  - rewrite <- Z.pow_add_r by lia. apply Z.pow_le_mono_r; lia.
Qed.

Lemma finite_key_lt s1 m1 e1 s2 m2 e2 :
  valid_binary (S754_finite s1 m1 e1) = true ->
  valid_binary (S754_finite s2 m2 e2) = true ->
  e1 < e2 ->
  Zpos m1 * 2 ^ (e1 + 1074) < Zpos m2 * 2 ^ (e2 + 1074).
Proof.
  intros H1 H2 He.
  destruct (valid_finite _ _ _ H1) as (He1 & Hd1 & _).
  destruct (valid_finite _ _ _ H2) as (He2 & _ & Hd2).
  specialize (Hd2 ltac:(lia)).
  pose proof (digits2_pos_bounds m1) as [_ Hm1].
  pose proof (digits2_pos_bounds m2) as [Hm2 _]. rewrite Hd2 in Hm2.
  assert (Hp1 : 0 < 2 ^ (e1 + 1074)) by (apply Z.pow_pos_nonneg; lia).
  assert (Hp2 : 0 < 2 ^ (e2 + 1074)) by (apply Z.pow_pos_nonneg; lia).
  apply Z.lt_le_trans with (2 ^ 53 * 2 ^ (e1 + 1074)).
  - apply Z.mul_lt_mono_pos_r; [exact Hp1 |].
    apply Z.lt_le_trans with (2 ^ Zpos (digits2_pos m1)); [exact Hm1 |].
    apply Z.pow_le_mono_r; lia.
  - apply Z.le_trans with (2 ^ (53 - 1) * 2 ^ (e2 + 1074)).
    + rewrite <- !Z.pow_add_r by lia. apply Z.pow_le_mono_r; lia.
    + apply Z.mul_le_mono_nonneg_r; lia.
Qed.

Lemma compare_same_exp (m1 m2 : positive) (p : Z) :
  0 < p -> (Zpos m1 * p ?= Zpos m2 * p) = Pos.compare_cont Eq m1 m2.
Proof.
  intros Hp. change (Pos.compare_cont Eq m1 m2) with (Zpos m1 ?= Zpos m2).
  destruct (Z.compare_spec (Zpos m1) (Zpos m2)) as [E | L | G].
  - rewrite E. apply Z.compare_refl.
  - apply Z.compare_lt_iff. apply Z.mul_lt_mono_pos_r; assumption.
  - apply Z.compare_gt_iff. apply Z.mul_lt_mono_pos_r; assumption.
Qed.

Lemma compare_opp a b : (- a ?= - b) = CompOpp (a ?= b).
Proof. rewrite Z.compare_opp. apply Z.compare_antisym. Qed.

Ltac solve_cmp :=
  f_equal; symmetry;
  first [ apply Z.compare_refl
        | apply Z.compare_lt_iff; lia
        | apply Z.compare_gt_iff; lia ].

Lemma SFcompare_finite sx mx ex sy my ey :
  valid_binary (S754_finite sx mx ex) = true ->
  valid_binary (S754_finite sy my ey) = true ->
  SFcompare (S754_finite sx mx ex) (S754_finite sy my ey) =
  Some (key (S754_finite sx mx ex) ?= key (S754_finite sy my ey)).
Proof.
  intros Vx Vy.
  pose proof (finite_magnitude _ _ _ Vx) as Hx.
  pose proof (finite_magnitude _ _ _ Vy) as Hy.
  assert (Hp : 0 < 2 ^ (ex + 1074))
    by (apply Z.pow_pos_nonneg; destruct (valid_finite _ _ _ Vx); lia).
  simpl SFcompare; unfold key, cond_Zopp.
  destruct sx, sy.
  - rewrite compare_opp.
    destruct (Z.compare_spec ex ey) as [E | L | G]; f_equal.
    + subst ey. f_equal. symmetry. apply compare_same_exp, Hp.
    + pose proof (finite_key_lt _ _ _ _ _ _ Vx Vy L) as H.
      apply Z.compare_lt_iff in H. rewrite H. reflexivity.
    + pose proof (finite_key_lt _ _ _ _ _ _ Vy Vx G) as H.
      apply Z.compare_gt_iff in H. rewrite H. reflexivity.
  - solve_cmp.
  - solve_cmp.
  - destruct (Z.compare_spec ex ey) as [E | L | G]; f_equal; symmetry.
    + subst ey. apply compare_same_exp, Hp.
    + apply Z.compare_lt_iff. exact (finite_key_lt _ _ _ _ _ _ Vx Vy L).
    + apply Z.compare_gt_iff. exact (finite_key_lt _ _ _ _ _ _ Vy Vx G).
Qed.

(** On valid doubles that are not [NaN], [SFcompare] compares the keys. *)
Theorem SFcompare_key (x y : spec_float) :
  valid_binary x = true -> valid_binary y = true ->
  number_like x = true -> number_like y = true ->
  SFcompare x y = Some (key x ?= key y).
Proof.
  intros Vx Vy Nx Ny.
  assert (Htop : 0 < huge) by (unfold huge; apply Z.pow_pos_nonneg; lia).
  destruct x as [sx | sx | | sx mx ex], y as [sy | sy | | sy my ey];
    try discriminate;
    try (apply SFcompare_finite; assumption);
    try (pose proof (finite_magnitude _ _ _ Vx) as Hx);
    try (pose proof (finite_magnitude _ _ _ Vy) as Hy);
    simpl SFcompare; unfold key, cond_Zopp;
    try destruct sx; try destruct sy; solve_cmp.
Qed.

(** *** Comparisons of primitive floats *)

Lemma number_like_compare x :
  valid_binary x = true -> number_like x = true -> SFcompare x x = Some Eq.
Proof.
  intros V N. rewrite (SFcompare_key x x V V N N), Z.compare_refl. reflexivity.
Qed.

Lemma is_nan_number f : is_nan f = negb (number_like (Prim2SF f)).
Proof.
  unfold is_nan. rewrite eqb_spec. unfold SFeqb.
  destruct (number_like (Prim2SF f)) eqn:N.
  - rewrite (number_like_compare _ (Prim2SF_valid f) N). reflexivity.
  - destruct (Prim2SF f); try discriminate. reflexivity.
Qed.

Lemma numeric_number f : is_nan f = false <-> number_like (Prim2SF f) = true.
Proof. rewrite is_nan_number. destruct (number_like (Prim2SF f)); simpl; intuition congruence. Qed.

Lemma compare_val a b :
  is_nan a = false -> is_nan b = false ->
  SFcompare (Prim2SF a) (Prim2SF b) = Some (val a ?= val b).
Proof.
  intros Ha Hb. apply SFcompare_key; try apply Prim2SF_valid; apply numeric_number; assumption.
Qed.

Lemma leb_val a b :
  is_nan a = false -> is_nan b = false ->
  ((a <=? b)%float = true <-> val a <= val b).
Proof.
  intros Ha Hb. rewrite leb_spec. unfold SFleb. rewrite (compare_val a b Ha Hb).
  destruct (Z.compare_spec (val a) (val b)); split; intros; try reflexivity; try lia; discriminate.
Qed.

Lemma ltb_val a b :
  is_nan a = false -> is_nan b = false ->
  ((a <? b)%float = true <-> val a < val b).
Proof.
  intros Ha Hb. rewrite ltb_spec. unfold SFltb. rewrite (compare_val a b Ha Hb).
  destruct (Z.compare_spec (val a) (val b)); split; intros; try reflexivity; try lia; discriminate.
Qed.

Lemma eqb_val a b :
  is_nan a = false -> is_nan b = false ->
  ((a =? b)%float = true <-> val a = val b).
Proof.
  intros Ha Hb. rewrite eqb_spec. unfold SFeqb. rewrite (compare_val a b Ha Hb).
  destruct (Z.compare_spec (val a) (val b)); split; intros; try reflexivity; try lia; discriminate.
Qed.

Lemma leb_numeric a b : (a <=? b)%float = true -> is_nan a = false /\ is_nan b = false.
Proof.
  rewrite leb_spec, !is_nan_number. unfold SFleb.
  destruct (Prim2SF a), (Prim2SF b); simpl; try discriminate; auto.
Qed.


(** [Math.max] and [Math.min] of two numbers are numbers, with the larger
    and the smaller key. *)
Lemma Math_max_val a b :
  is_nan a = false -> is_nan b = false ->
  is_nan (Math_max a b) = false /\ val (Math_max a b) = Z.max (val a) (val b).
Proof.
  intros Ha Hb. unfold Math_max. rewrite Ha, Hb. simpl.
  destruct (a <? b)%float eqn:L1.
  - apply (ltb_val a b Ha Hb) in L1. split; [exact Hb | lia].
  - destruct (b <? a)%float eqn:L2.
    + apply (ltb_val b a Hb Ha) in L2. split; [exact Ha | lia].
    + assert (E : val a = val b).
      { destruct (Z.compare_spec (val a) (val b)) as [E | L | G]; [exact E | |].
        - apply (ltb_val a b Ha Hb) in L. congruence.
        - apply (ltb_val b a Hb Ha) in G. congruence. }
      destruct (classify a); split; try assumption; lia.
Qed.

Lemma Math_min_val a b :
  is_nan a = false -> is_nan b = false ->
  is_nan (Math_min a b) = false /\ val (Math_min a b) = Z.min (val a) (val b).
Proof.
  intros Ha Hb. unfold Math_min. rewrite Ha, Hb. simpl.
  destruct (a <? b)%float eqn:L1.
  - apply (ltb_val a b Ha Hb) in L1. split; [exact Ha | lia].
  - destruct (b <? a)%float eqn:L2.
    + apply (ltb_val b a Hb Ha) in L2. split; [exact Hb | lia].
    + assert (E : val a = val b).
      { destruct (Z.compare_spec (val a) (val b)) as [E | L | G]; [exact E | |].
        - apply (ltb_val a b Ha Hb) in L. congruence.
        - apply (ltb_val b a Hb Ha) in G. congruence. }
      destruct (classify a); split; try assumption; lia.
Qed.

(** *** Results that are not [NaN] *)

Lemma shr_1_nonneg r : 0 <= shr_m r -> 0 <= shr_m (shr_1 r).
Proof.
  destruct r as [m r s]. simpl. destruct m as [| [p | p |] | p]; simpl; lia.
Qed.

Lemma iter_shr_1_nonneg p : forall r, 0 <= shr_m r -> 0 <= shr_m (iter_pos shr_1 p r).
Proof.
  induction p as [p IH | p IH |]; intros r Hr; simpl.
  - apply IH, IH, shr_1_nonneg, Hr.
  - apply IH, IH, Hr.
  - apply shr_1_nonneg, Hr.
Qed.

Lemma shr_record_of_loc_m m l : shr_m (shr_record_of_loc m l) = m.
Proof. destruct l as [| []]; reflexivity. Qed.

Lemma shr_fexp_nonneg m e l :
  0 <= m -> 0 <= shr_m (fst (shr_fexp prec emax m e l)).
Proof.
  intros Hm. unfold shr_fexp, shr.
  destruct (fexp prec emax (Zdigits2 m + e) - e) as [| p | p]; simpl;
    try (rewrite shr_record_of_loc_m; exact Hm).
  apply iter_shr_1_nonneg. rewrite shr_record_of_loc_m. exact Hm.
Qed.

Lemma round_nearest_even_nonneg m l : 0 <= m -> 0 <= round_nearest_even m l.
Proof.
  intros Hm. unfold round_nearest_even.
  destruct l as [| []]; try destruct (Z.even m); lia.
Qed.

Lemma binary_round_aux_number sx mx ex lx :
  0 <= mx -> number_like (binary_round_aux prec emax sx mx ex lx) = true.
Proof.
  intros Hm. unfold binary_round_aux.
  pose proof (shr_fexp_nonneg mx ex lx Hm) as H1.
  destruct (shr_fexp prec emax mx ex lx) as [mrs' e']. simpl in H1.
  pose proof (shr_fexp_nonneg _ e' loc_Exact
                (round_nearest_even_nonneg _ (loc_of_shr_record mrs') H1)) as H2.
  destruct (shr_fexp prec emax
              (round_nearest_even (shr_m mrs') (loc_of_shr_record mrs')) e' loc_Exact)
    as [mrs'' e'']. simpl in H2.
  destruct (shr_m mrs'') as [| p | p]; [reflexivity | | lia].
  destruct (e'' <=? emax - prec); reflexivity.
Qed.

Lemma binary_normalize_number m e szero :
  number_like (binary_normalize prec emax m e szero) = true.
Proof.
  destruct m as [| p | p]; simpl; [reflexivity | |];
    unfold binary_round;
    destruct (shl_align _ _ _) as [mz ez]; apply binary_round_aux_number; lia.
Qed.

Lemma SFsub_number x y :
  number_like x = true -> finite_like y = true ->
  number_like (SFsub prec emax x y) = true.
Proof.
  intros Hx Hy. destruct x as [sx | sx | | sx mx ex], y as [sy | sy | | sy my ey];
    try discriminate; simpl; try reflexivity.
  - destruct sx, sy; reflexivity.
  - apply binary_normalize_number.
Qed.

Lemma SFsub_number_l x y :
  finite_like x = true -> number_like y = true ->
  number_like (SFsub prec emax x y) = true.
Proof.
  intros Hx Hy. destruct x as [sx | sx | | sx mx ex], y as [sy | sy | | sy my ey];
    try discriminate; simpl; try reflexivity.
  - destruct sx, sy; reflexivity.
  - apply binary_normalize_number.
Qed.

Lemma SFdiv_number_r x y :
  number_like x = true ->
  match y with S754_finite _ _ _ => True | _ => False end ->
  number_like (SFdiv prec emax x y) = true.
Proof.
  intros Hx Hy. destruct x as [sx | sx | | sx mx ex], y as [sy | sy | | sy my ey];
    try discriminate; try contradiction; simpl; try reflexivity.
  unfold SFdiv_core_binary.
  set (m' := match _ with Z0 => _ | Zpos _ => _ | Zneg _ => _ end).
  assert (Hm' : 0 <= m').
  { unfold m'. destruct (_ - _ - _) as [| p | p]; try lia. apply Z.shiftl_nonneg. lia. }
  pose proof (Z.div_eucl_eq m' (Zpos my) ltac:(lia)) as E.
  pose proof (Z.mod_pos_bound m' (Zpos my) ltac:(lia)) as B.
  unfold Z.modulo in B.
  destruct (Z.div_eucl m' (Zpos my)) as [q r]. 
  apply binary_round_aux_number. nia.
Qed.


(** *** Rounding never crosses a double

    [binary_round_aux] shifts the exact mantissa right until it fits,
    rounds to nearest even on the bits shifted out, and shifts once more
    if the rounding carried.  Below, [b] is a valid finite double of key
    [Zpos mb * sc eb]. *)

Lemma shifted_init M : shifted M 0 (shr_record_of_loc M loc_Exact).
Proof. split; simpl; [rewrite Z.div_1_r; reflexivity | discriminate]. Qed.

Lemma mod_pow_succ M k : 0 <= k -> M mod 2 ^ k <> 0 -> M mod 2 ^ (k + 1) <> 0.
Proof.
  intros Hk H E. apply H.
  apply Z.mod_divide in E; [| apply Z.pow_nonzero; lia].
  apply Z.mod_divide; [apply Z.pow_nonzero; lia |].
  destruct E as [q E]. exists (q * 2). rewrite E, Z.pow_add_r by lia.
  change (2 ^ 1) with 2. ring.
Qed.

Lemma odd_quotient M k :
  0 <= k -> (M / 2 ^ k) mod 2 = 1 -> M mod 2 ^ (k + 1) <> 0.
Proof.
  intros Hk Hodd E.
  apply Z.mod_divide in E; [| apply Z.pow_nonzero; lia].
  destruct E as [q E]. rewrite Z.pow_add_r in E by lia. change (2 ^ 1) with 2 in E.
  assert (Hq : M / 2 ^ k = q * 2).
  { rewrite E. replace (q * (2 ^ k * 2)) with (q * 2 * 2 ^ k) by ring.
    apply Z.div_mul. apply Z.pow_nonzero; lia. }
  rewrite Hq, Z.mod_mul in Hodd by lia. discriminate.
Qed.

Lemma shr_1_fields m rb sb :
  0 <= m ->
  shr_1 (Build_shr_record m rb sb) = Build_shr_record (m / 2) (Z.odd m) (rb || sb).
Proof.
  intros Hm. destruct m as [| [p | p |] | p]; try lia; simpl shr_1; f_equal.
  - rewrite Pos2Z.inj_xI. apply Z.div_unique with 1; lia.
  - rewrite Pos2Z.inj_xO. apply Z.div_unique with 0; lia.
Qed.

Lemma shifted_shr_1 M k r :
  0 <= M -> 0 <= k -> shifted M k r -> shifted M (k + 1) (shr_1 r).
Proof.
  intros HM Hk [Hm He].
  assert (Hdiv : M / 2 ^ (k + 1) = M / 2 ^ k / 2).
  { rewrite Z.pow_add_r by lia. change (2 ^ 1) with 2.
    rewrite Z.div_div by (try apply Z.pow_pos_nonneg; lia). reflexivity. }
  destruct r as [m rb sb]. simpl in Hm, He.
  assert (Hm0 : 0 <= m) by (rewrite Hm; apply Z.div_pos; [lia | apply Z.pow_pos_nonneg; lia]).
  rewrite (shr_1_fields m rb sb Hm0). split; simpl.
  - rewrite Hdiv, Hm. reflexivity.
  - intros H. apply orb_true_iff in H. destruct H as [Hodd | Hs].
    + apply odd_quotient; [lia |]. rewrite <- Hm.
      rewrite Zodd_mod in Hodd. apply Z.eqb_eq in Hodd. exact Hodd.
    + apply mod_pow_succ; [lia | apply He; exact Hs].
Qed.

Lemma shifted_iter M p : forall k r,
  0 <= M -> 0 <= k -> shifted M k r -> shifted M (k + Zpos p) (iter_pos shr_1 p r).
Proof.
  induction p as [p IH | p IH |]; intros k r HM Hk H; simpl iter_pos.
  - replace (k + Zpos p~1) with (k + 1 + Zpos p + Zpos p) by lia.
    apply IH; [lia | lia |]. apply IH; [lia | lia |]. apply shifted_shr_1; assumption.
  - replace (k + Zpos p~0) with (k + Zpos p + Zpos p) by lia.
    apply IH; [lia | lia |]. apply IH; assumption.
  - apply shifted_shr_1; assumption.
Qed.

(** What [shr_fexp] does to a non-negative mantissa. *)
Lemma shr_fexp_spec (m e : Z) :
  0 <= m ->
  let n := Z.max 0 (fexp prec emax (Zdigits2 m + e) - e) in
  let '(r, e') := shr_fexp prec emax m e loc_Exact in
  e' = e + n /\ shifted m n r.
Proof.
  intros Hm n. unfold shr_fexp, shr. subst n.
  destruct (fexp prec emax (Zdigits2 m + e) - e) as [| p | p] eqn:E.
  - split; [lia | apply shifted_init].
  - split; [lia |]. replace (Z.max 0 (Z.pos p)) with (0 + Zpos p) by lia.
    apply shifted_iter; [exact Hm | lia | apply shifted_init].
  - split; [lia | apply shifted_init].
Qed.

Lemma sc_pos e : -1074 <= e -> 0 < sc e.
Proof. intros H. unfold sc. apply Z.pow_pos_nonneg; lia. Qed.

Lemma sc_add e n : -1074 <= e -> 0 <= n -> sc (e + n) = 2 ^ n * sc e.
Proof.
  intros He Hn. unfold sc. rewrite <- Z.pow_add_r by lia. f_equal. lia.
Qed.

Lemma fexp_eq e : fexp prec emax e = Z.max (e - 53) (-1074).
Proof. reflexivity. Qed.

Lemma Zdigits2_bounds m :
  0 < m -> 0 < Zdigits2 m /\ 2 ^ (Zdigits2 m - 1) <= m < 2 ^ Zdigits2 m.
Proof.
  intros Hm. destruct m as [| p | p]; try lia. simpl Zdigits2.
  split; [lia | apply digits2_pos_bounds].
Qed.

(** Truncating a value keeps it above every float below it. *)
Lemma trunc_lower (m e : Z) (sb : bool) (mb : positive) (eb : Z) :
  0 < m -> -1074 <= e ->
  valid_binary (S754_finite sb mb eb) = true ->
  Zpos mb * sc eb <= m * sc e ->
  let n := Z.max 0 (fexp prec emax (Zdigits2 m + e) - e) in
  Zpos mb * sc eb <= m / 2 ^ n * sc (e + n).
Proof.
  intros Hm He Vb Hle n.
  destruct (valid_finite _ _ _ Vb) as (Heb & Hdb & _).
  destruct (Zdigits2_bounds m Hm) as (Hd0 & Hlo & Hhi).
  pose proof (digits2_pos_bounds mb) as [_ Hmb].
  pose proof (sc_pos e He) as Hsc.
  assert (Hn0 : 0 <= n) by (unfold n; lia).
  rewrite sc_add by lia.
  assert (Hpn : 0 < 2 ^ n) by (apply Z.pow_pos_nonneg; lia).
  destruct (Z.eq_dec n 0) as [Hz | Hnz].
  { rewrite Hz. change (2 ^ 0) with 1. rewrite Z.div_1_r. lia. }
  destruct (Z_le_gt_dec (e + n) eb) as [Hge | Hlt].
  - (* the bound is a multiple of the new unit *)
    assert (Heq : sc eb = 2 ^ (eb - (e + n)) * (2 ^ n * sc e)).
    { rewrite <- sc_add by lia. rewrite <- sc_add by lia. f_equal. lia. }
    rewrite Heq in *.
    set (K := Zpos mb * 2 ^ (eb - (e + n))).
    assert (HK : K * 2 ^ n <= m).
    { apply Z.mul_le_mono_pos_r with (sc e); [exact Hsc |]. unfold K. nia. }
    assert (HKq : K <= m / 2 ^ n).
    { apply Z.div_le_lower_bound; [exact Hpn | lia]. }
    replace (Zpos mb * (2 ^ (eb - (e + n)) * (2 ^ n * sc e))) with (K * (2 ^ n * sc e))
      by (unfold K; ring).
    apply Z.mul_le_mono_nonneg_r; [nia | exact HKq].
  - (* the bound lies in a lower binade *)
    assert (Hn : n = Zdigits2 m - 53).
    { unfold n in *. rewrite fexp_eq in *. lia. }
    assert (Hq : 2 ^ 52 <= m / 2 ^ n).
    { apply Z.div_le_lower_bound; [exact Hpn |].
      rewrite Z.mul_comm, <- Z.pow_add_r by lia.
      replace (52 + n) with (Zdigits2 m - 1) by lia. exact Hlo. }
    apply Z.le_trans with (2 ^ 53 * sc eb).
    + apply Z.mul_le_mono_nonneg_r; [pose proof (sc_pos eb); lia |].
      apply Z.le_trans with (2 ^ Zpos (digits2_pos mb)); [lia |].
      apply Z.pow_le_mono_r; lia.
    + apply Z.le_trans with (2 ^ 52 * (2 ^ n * sc e)).
      * unfold sc. rewrite <- !Z.pow_add_r by lia. apply Z.pow_le_mono_r; lia.
      * apply Z.mul_le_mono_nonneg_r; [nia | exact Hq].
Qed.

(** Rounding an inexact value up stays below every float above it. *)
Lemma round_upper (m e : Z) (sb : bool) (mb : positive) (eb : Z) :
  0 < m -> -1074 <= e ->
  valid_binary (S754_finite sb mb eb) = true ->
  m * sc e <= Zpos mb * sc eb ->
  let n := Z.max 0 (fexp prec emax (Zdigits2 m + e) - e) in
  m mod 2 ^ n <> 0 ->
  (m / 2 ^ n + 1) * sc (e + n) <= Zpos mb * sc eb.
Proof.
  intros Hm He Vb Hle n Hmod.
  destruct (valid_finite _ _ _ Vb) as (Heb & Hdb & _).
  destruct (Zdigits2_bounds m Hm) as (Hd0 & Hlo & Hhi).
  pose proof (digits2_pos_bounds mb) as [_ Hmb].
  pose proof (sc_pos e He) as Hsc.
  assert (Hn0 : 0 <= n) by (unfold n; lia).
  rewrite sc_add by lia.
  assert (Hpn : 0 < 2 ^ n) by (apply Z.pow_pos_nonneg; lia).
  pose proof (Z.div_mod m (2 ^ n) ltac:(lia)) as Hdm.
  pose proof (Z.mod_pos_bound m (2 ^ n) Hpn) as Hbound.
  destruct (Z.eq_dec n 0) as [Hz | Hnz].
  { exfalso. apply Hmod. rewrite Hz. apply Z.mod_1_r. }
  destruct (Z_le_gt_dec (e + n) eb) as [Hge | Hlt].
  - assert (Heq : sc eb = 2 ^ (eb - (e + n)) * (2 ^ n * sc e)).
    { rewrite <- sc_add by lia. rewrite <- sc_add by lia. f_equal. lia. }
    rewrite Heq in *.
    set (K := Zpos mb * 2 ^ (eb - (e + n))).
    assert (HK : m <= K * 2 ^ n).
    { apply Z.mul_le_mono_pos_r with (sc e); [exact Hsc |]. unfold K. nia. }
    assert (HKq : m / 2 ^ n + 1 <= K) by nia.
    replace (Zpos mb * (2 ^ (eb - (e + n)) * (2 ^ n * sc e))) with (K * (2 ^ n * sc e))
      by (unfold K; ring).
    apply Z.mul_le_mono_nonneg_r; [nia | exact HKq].
  - exfalso.
    assert (Hn : n = Zdigits2 m - 53).
    { unfold n in *. rewrite fexp_eq in *. lia. }
    assert (Hlt' : Zpos mb * sc eb < m * sc e).
    { apply Z.lt_le_trans with (2 ^ 53 * sc eb).
      - apply Z.mul_lt_mono_pos_r; [apply sc_pos; lia |].
        apply Z.lt_le_trans with (2 ^ Zpos (digits2_pos mb)); [lia |].
        apply Z.pow_le_mono_r; lia.
      - apply Z.le_trans with (2 ^ (Zdigits2 m - 1) * sc e).
        + unfold sc. rewrite <- !Z.pow_add_r by lia. apply Z.pow_le_mono_r; lia.
        + apply Z.mul_le_mono_nonneg_r; lia. }
    lia.
Qed.

Lemma round_nearest_even_bounds (r : shr_record) :
  let m := round_nearest_even (shr_m r) (loc_of_shr_record r) in
  (m = shr_m r \/ (m = shr_m r + 1 /\ shr_r r || shr_s r = true)).
Proof.
  destruct r as [m [|] [|]]; simpl; try (left; reflexivity);
    try (right; split; reflexivity).
  destruct (Z.even m); [left | right; split]; reflexivity.
Qed.

Lemma trunc_below (m n : Z) : 0 <= m -> 0 <= n -> m / 2 ^ n * 2 ^ n <= m.
Proof.
  intros Hm Hn. assert (Hp : 0 < 2 ^ n) by (apply Z.pow_pos_nonneg; lia).
  pose proof (Z.div_mod m (2 ^ n) ltac:(lia)).
  pose proof (Z.mod_pos_bound m (2 ^ n) Hp). nia.
Qed.

Section RoundPositive.
Variable mz : positive.
Variable ez : Z.
Hypothesis ez_min : -1074 <= ez.
Variable sb : bool.
Variable mb : positive.
Variable eb : Z.
Hypothesis b_valid : valid_binary (S754_finite sb mb eb) = true.

Let result := binary_round_aux prec emax false (Zpos mz) ez loc_Exact.

(** A double below the exact value is below the rounded one. *)
Lemma bra_lower :
  Zpos mb * sc eb <= Zpos mz * sc ez -> Zpos mb * sc eb <= key result.
Proof.
  intros Hle. unfold result, binary_round_aux.
  pose proof (finite_magnitude _ _ _ b_valid) as Hb. fold (sc eb) in Hb.
  pose proof (shr_fexp_spec (Zpos mz) ez ltac:(lia)) as S1.
  pose proof (trunc_lower (Zpos mz) ez sb mb eb ltac:(lia) ez_min b_valid Hle) as T1.
  cbv zeta in S1, T1.
  set (n1 := Z.max 0 (fexp prec emax (Zdigits2 (Zpos mz) + ez) - ez)) in *.
  destruct (shr_fexp prec emax (Zpos mz) ez loc_Exact) as [r1 e1].
  destruct S1 as [He1 [Hm1 _]]. subst e1. rewrite <- Hm1 in T1.
  destruct (round_nearest_even_bounds r1) as [Hr | [Hr _]]; cbv zeta in Hr;
    set (mr := round_nearest_even (shr_m r1) (loc_of_shr_record r1)) in *.
  all: assert (Hn1 : 0 <= n1) by (unfold n1; lia).
  all: pose proof (sc_pos (ez + n1) ltac:(lia)) as Hsc1.
  all: assert (Hmr : Zpos mb * sc eb <= mr * sc (ez + n1)) by nia.
  all: assert (Hmr0 : 0 < mr) by nia.
  all: pose proof (shr_fexp_spec mr (ez + n1) ltac:(lia)) as S2.
  all: pose proof (trunc_lower mr (ez + n1) sb mb eb Hmr0 ltac:(lia) b_valid Hmr) as T2.
  all: cbv zeta in S2, T2.
  all: set (n2 := Z.max 0 (fexp prec emax (Zdigits2 mr + (ez + n1)) - (ez + n1))) in *.
  all: destruct (shr_fexp prec emax mr (ez + n1) loc_Exact) as [r2 e2].
  all: destruct S2 as [He2 [Hm2 _]]; subst e2; rewrite <- Hm2 in T2.
  all: assert (Hn2 : 0 <= n2) by (unfold n2; lia).
  all: pose proof (sc_pos (ez + n1 + n2) ltac:(lia)) as Hsc2.
  all: destruct (shr_m r2) as [| p | p]; [nia | | nia].
  all: destruct (ez + n1 + n2 <=? emax - prec); simpl key; unfold cond_Zopp;
         [exact T2 | unfold huge in *; lia].
Qed.

Hypothesis aligned : ez <= fexp prec emax (Zpos (digits2_pos mz) + ez).

(** A double above the exact value is above the rounded one. *)
Lemma bra_upper :
  Zpos mz * sc ez <= Zpos mb * sc eb -> key result <= Zpos mb * sc eb.
Proof.
  intros Hle. unfold result, binary_round_aux.
  pose proof (finite_magnitude _ _ _ b_valid) as Hb. fold (sc eb) in Hb.
  pose proof (shr_fexp_spec (Zpos mz) ez ltac:(lia)) as S1.
  pose proof (round_upper (Zpos mz) ez sb mb eb ltac:(lia) ez_min b_valid Hle) as U1.
  cbv zeta in S1, U1.
  set (n1 := Z.max 0 (fexp prec emax (Zdigits2 (Zpos mz) + ez) - ez)) in *.
  assert (Hn1 : 0 <= n1) by (unfold n1; lia).
  assert (He1 : ez + n1 = fexp prec emax (Zpos (digits2_pos mz) + ez)).
  { unfold n1. simpl Zdigits2. lia. }
  destruct (shr_fexp prec emax (Zpos mz) ez loc_Exact) as [r1 e1].
  destruct S1 as [He1' [Hm1 Hex1]]. subst e1.
  pose proof (sc_pos ez ez_min) as Hsc.
  pose proof (sc_pos (ez + n1) ltac:(lia)) as Hsc1.
  pose proof (trunc_below (Zpos mz) n1 ltac:(lia) Hn1) as Htb.
  assert (Hp1 : 0 < 2 ^ n1) by (apply Z.pow_pos_nonneg; lia).
  assert (Hm1pos : 0 <= shr_m r1) by (rewrite Hm1; apply Z.div_pos; lia).
  set (mr := round_nearest_even (shr_m r1) (loc_of_shr_record r1)).
  assert (Hmr : mr * sc (ez + n1) <= Zpos mb * sc eb /\ 0 <= mr).
  { destruct (round_nearest_even_bounds r1) as [Hr | [Hr Hin]]; cbv zeta in Hr;
      fold mr in Hr; rewrite Hr.
    - split; [| exact Hm1pos]. rewrite Hm1, sc_add by lia.
      apply Z.le_trans with (Zpos mz * sc ez); [nia | exact Hle].
    - split; [| lia]. rewrite Hm1. apply U1. apply Hex1. exact Hin. }
  destruct Hmr as [Hmr Hmr0].
  pose proof (shr_fexp_spec mr (ez + n1) Hmr0) as S2. cbv zeta in S2.
  set (n2 := Z.max 0 (fexp prec emax (Zdigits2 mr + (ez + n1)) - (ez + n1))) in *.
  assert (Hn2 : 0 <= n2) by (unfold n2; lia).
  destruct (shr_fexp prec emax mr (ez + n1) loc_Exact) as [r2 e2].
  destruct S2 as [He2 [Hm2 _]]. subst e2.
  pose proof (trunc_below mr n2 Hmr0 Hn2) as Htb2.
  pose proof (sc_pos (ez + n1 + n2) ltac:(lia)) as Hsc2.
  assert (Hres : shr_m r2 * sc (ez + n1 + n2) <= Zpos mb * sc eb).
  { rewrite Hm2, sc_add by lia. nia. }
  destruct (shr_m r2) as [| p | p] eqn:Ep; simpl key; [lia | | lia].
  change (emax - prec) with 971.
  destruct (Z.leb_spec (ez + n1 + n2) 971) as [Hfit | Hover];
    simpl key; unfold cond_Zopp; [exact Hres |].
  exfalso.
  (* the rounded mantissa has value below 2^2098, so its exponent fits *)
  assert (Hmrpos : 0 < mr).
  { destruct (Z.eq_dec mr 0) as [E0 | ]; [| lia].
    rewrite E0, Z.div_0_l in Hm2 by (apply Z.pow_nonzero; lia). lia. }
  destruct (Zdigits2_bounds mr Hmrpos) as (_ & Hlo & _).
  assert (Hsmall : 2 ^ (Zdigits2 mr - 1) * sc (ez + n1) < huge) by nia.
  unfold sc, huge in Hsmall. rewrite <- Z.pow_add_r in Hsmall
    by (try lia; destruct (Zdigits2_bounds mr Hmrpos); lia).
  apply Z.pow_lt_mono_r_iff in Hsmall; [| lia | lia].
  destruct (Zdigits2_bounds (Zpos mz) ltac:(lia)) as (_ & Hloz & _).
  assert (Hsmallz : 2 ^ (Zdigits2 (Zpos mz) - 1) * sc ez < huge) by nia.
  unfold sc, huge in Hsmallz. rewrite <- Z.pow_add_r in Hsmallz by (simpl Zdigits2; lia).
  apply Z.pow_lt_mono_r_iff in Hsmallz; [| lia | lia].
  simpl Zdigits2 in Hsmallz.
  unfold n2 in Hover. rewrite fexp_eq in *. lia.
Qed.

End RoundPositive.

Lemma iter_xO_spec (m d : positive) :
  Zpos (Pos.iter xO m d) = Zpos m * 2 ^ Zpos d /\
  Zpos (digits2_pos (Pos.iter xO m d)) = Zpos (digits2_pos m) + Zpos d.
Proof.
  induction d as [| d IH] using Pos.peano_ind.
  - simpl. split; lia.
  - rewrite Pos.iter_succ. destruct IH as [IH1 IH2].
    rewrite Pos2Z.inj_xO, IH1. simpl digits2_pos.
    rewrite !Pos2Z.inj_succ, IH2, Z.pow_succ_r by lia. split; lia.
Qed.

Lemma shl_align_spec (m : positive) (e e' : Z) :
  -1074 <= e -> -1074 <= e' ->
  let '(mz, ez) := shl_align m e e' in
  ez = Z.min e e' /\
  Zpos mz * sc ez = Zpos m * sc e /\
  Zpos (digits2_pos mz) + ez = Zpos (digits2_pos m) + e.
Proof.
  intros He He'. unfold shl_align.
  destruct (e' - e) as [| d | d] eqn:E.
  - repeat split; lia.
  - repeat split; lia.
  - destruct (iter_xO_spec m d) as [H1 H2]. rewrite H1, H2.
    split; [lia | split; [| lia]].
    replace e with (e' + Zpos d) by lia. rewrite sc_add by lia. ring.
Qed.

Lemma binary_round_bounds (M : positive) (E : Z) (sb : bool) (mb : positive) (eb : Z) :
  -1074 <= E ->
  valid_binary (S754_finite sb mb eb) = true ->
  (Zpos mb * sc eb <= Zpos M * sc E ->
   Zpos mb * sc eb <= key (binary_round prec emax false M E)) /\
  (Zpos M * sc E <= Zpos mb * sc eb ->
   key (binary_round prec emax false M E) <= Zpos mb * sc eb).
Proof.
  intros HE Vb. unfold binary_round.
  pose proof (shl_align_spec M E (fexp prec emax (Zpos (digits2_pos M) + E)) HE
                ltac:(rewrite fexp_eq; lia)) as S.
  destruct (shl_align M E (fexp prec emax (Zpos (digits2_pos M) + E))) as [mz ez].
  destruct S as (Hez & Hval & Hdig).
  assert (Hmin : -1074 <= ez) by (rewrite Hez, fexp_eq; lia).
  rewrite <- Hval. split; intros H.
  - apply bra_lower with (sb := sb); assumption.
  - apply bra_upper with (sb := sb); try assumption.
    rewrite Hdig, Hez. lia.
Qed.

Lemma binary_round_aux_neg mx ex lx :
  key (binary_round_aux prec emax true mx ex lx) <= 0.
Proof.
  unfold binary_round_aux.
  destruct (shr_fexp prec emax mx ex lx) as [mrs' e'].
  destruct (shr_fexp prec emax _ e' loc_Exact) as [mrs'' e''].
  destruct (shr_m mrs'') as [| p | p]; try (simpl; lia).
  destruct (e'' <=? emax - prec); unfold key, cond_Zopp.
  - assert (0 <= 2 ^ (e'' + 1074)) by (apply Z.pow_nonneg; lia). nia.
  - unfold huge. assert (0 < 2 ^ 2098) by (apply Z.pow_pos_nonneg; lia). lia.
Qed.

Lemma binary_normalize_bounds (M E : Z) (sb : bool) (mb : positive) (eb : Z) :
  -1074 <= E ->
  valid_binary (S754_finite sb mb eb) = true ->
  (Zpos mb * sc eb <= M * sc E ->
   Zpos mb * sc eb <= key (binary_normalize prec emax M E false)) /\
  (M * sc E <= Zpos mb * sc eb ->
   key (binary_normalize prec emax M E false) <= Zpos mb * sc eb).
Proof.
  intros HE Vb.
  pose proof (finite_magnitude _ _ _ Vb) as Hb. fold (sc eb) in Hb.
  pose proof (sc_pos E HE) as Hsc.
  destruct M as [| p | p]; simpl binary_normalize.
  - simpl key. split; lia.
  - apply binary_round_bounds with (sb := sb); assumption.
  - split; intros H; [nia |].
    unfold binary_round. destruct (shl_align _ _ _) as [mz ez].
    pose proof (binary_round_aux_neg (Zpos mz) ez loc_Exact). lia.
Qed.

Lemma aligned_mantissa_value s m e e' :
  -1074 <= e -> -1074 <= e' ->
  aligned_mantissa s m e (Z.min e e') * sc (Z.min e e') = cond_Zopp s (Zpos m * sc e).
Proof.
  intros He He'. unfold aligned_mantissa.
  pose proof (shl_align_spec m e (Z.min e e') He ltac:(lia)) as S.
  destruct (shl_align m e (Z.min e e')) as [mz ez]. destruct S as (Hez & Hval & _).
  simpl fst. replace (Z.min e (Z.min e e')) with (Z.min e e') in Hez by lia. subst ez.
  destruct s; unfold cond_Zopp; [rewrite Z.mul_opp_l, Hval | rewrite Hval]; reflexivity.
Qed.

(** The difference and the sum of two finite doubles stay on the side of
    [b] the exact result is on. *)
Section SumBounds.
Variables x y : spec_float.
Hypothesis x_valid : valid_binary x = true.
Hypothesis y_valid : valid_binary y = true.
Hypothesis x_finite : finite_like x = true.
Hypothesis y_finite : finite_like y = true.
Variable sb : bool.
Variable mb : positive.
Variable eb : Z.
Hypothesis b_valid : valid_binary (S754_finite sb mb eb) = true.

Let kb := Zpos mb * sc eb.

Lemma SFsub_bounds :
  (kb <= key x - key y -> kb <= key (SFsub prec emax x y)) /\
  (key x - key y <= kb -> key (SFsub prec emax x y) <= kb).
Proof.
  pose proof (finite_magnitude _ _ _ b_valid) as Hb. fold (sc eb) in Hb. fold kb in Hb.
  destruct x as [sx | sx | | sx mx ex], y as [sy | sy | | sy my ey]; try discriminate.
  - simpl SFsub. destruct sx, sy; simpl; split; lia.
  - simpl SFsub. simpl key. unfold cond_Zopp. destruct sy; simpl; split; lia.
  - simpl SFsub. simpl key. split; lia.
  - destruct (valid_finite _ _ _ x_valid) as (Hex & _).
    destruct (valid_finite _ _ _ y_valid) as (Hey & _).
    simpl SFsub. fold (aligned_mantissa sx mx ex (Z.min ex ey)).
    fold (aligned_mantissa sy my ey (Z.min ex ey)).
    pose proof (aligned_mantissa_value sx mx ex ey ltac:(lia) ltac:(lia)) as Hx.
    pose proof (aligned_mantissa_value sy my ey ex ltac:(lia) ltac:(lia)) as Hy.
    rewrite (Z.min_comm ey ex) in Hy.
    change (key (S754_finite sx mx ex)) with (cond_Zopp sx (Zpos mx * sc ex)).
    change (key (S754_finite sy my ey)) with (cond_Zopp sy (Zpos my * sc ey)).
    change (IntDef.Z.min ex ey) with (Z.min ex ey).
    rewrite <- Hx, <- Hy, <- Z.mul_sub_distr_r.
    apply binary_normalize_bounds with (sb := sb); [lia | exact b_valid].
Qed.

Lemma SFadd_bounds :
  (kb <= key x + key y -> kb <= key (SFadd prec emax x y)) /\
  (key x + key y <= kb -> key (SFadd prec emax x y) <= kb).
Proof.
  pose proof (finite_magnitude _ _ _ b_valid) as Hb. fold (sc eb) in Hb. fold kb in Hb.
  destruct x as [sx | sx | | sx mx ex], y as [sy | sy | | sy my ey]; try discriminate.
  - simpl SFadd. destruct sx, sy; simpl; split; lia.
  - simpl SFadd. simpl key. split; lia.
  - simpl SFadd. simpl key. split; lia.
  - destruct (valid_finite _ _ _ x_valid) as (Hex & _).
    destruct (valid_finite _ _ _ y_valid) as (Hey & _).
    simpl SFadd. fold (aligned_mantissa sx mx ex (Z.min ex ey)).
    fold (aligned_mantissa sy my ey (Z.min ex ey)).
    pose proof (aligned_mantissa_value sx mx ex ey ltac:(lia) ltac:(lia)) as Hx.
    pose proof (aligned_mantissa_value sy my ey ex ltac:(lia) ltac:(lia)) as Hy.
    rewrite (Z.min_comm ey ex) in Hy.
    change (key (S754_finite sx mx ex)) with (cond_Zopp sx (Zpos mx * sc ex)).
    change (key (S754_finite sy my ey)) with (cond_Zopp sy (Zpos my * sc ey)).
    change (IntDef.Z.min ex ey) with (Z.min ex ey).
    rewrite <- Hx, <- Hy, <- Z.mul_add_distr_r.
    apply binary_normalize_bounds with (sb := sb); [lia | exact b_valid].
Qed.

End SumBounds.


(** *** Signs *)

Lemma binary_round_aux_pos mx ex lx :
  0 <= key (binary_round_aux prec emax false mx ex lx).
Proof.
  unfold binary_round_aux.
  destruct (shr_fexp prec emax mx ex lx) as [mrs' e'].
  destruct (shr_fexp prec emax _ e' loc_Exact) as [mrs'' e''].
  destruct (shr_m mrs'') as [| p | p]; try (simpl; lia).
  destruct (e'' <=? emax - prec); unfold key, cond_Zopp.
  - assert (0 <= 2 ^ (e'' + 1074)) by (apply Z.pow_nonneg; lia). nia.
  - unfold huge. assert (0 < 2 ^ 2098) by (apply Z.pow_pos_nonneg; lia). lia.
Qed.

Lemma binary_normalize_pos (M E : Z) :
  -1074 <= E -> 0 <= M * sc E -> 0 <= key (binary_normalize prec emax M E false).
Proof.
  intros HE H. pose proof (sc_pos E HE) as Hsc.
  destruct M as [| p | p]; simpl binary_normalize.
  - simpl. lia.
  - unfold binary_round. destruct (shl_align _ _ _) as [mz ez].
    apply binary_round_aux_pos.
  - nia.
Qed.

Lemma SFsub_pos (x y : spec_float) :
  valid_binary x = true -> valid_binary y = true ->
  finite_like x = true -> finite_like y = true ->
  0 <= key x - key y -> 0 <= key (SFsub prec emax x y).
Proof.
  intros Vx Vy Fx Fy.
  destruct x as [sx | sx | | sx mx ex], y as [sy | sy | | sy my ey]; try discriminate.
  - simpl SFsub. destruct sx, sy; simpl; lia.
  - simpl SFsub. simpl key. unfold cond_Zopp. destruct sy; simpl; lia.
  - simpl SFsub. simpl key. lia.
  - destruct (valid_finite _ _ _ Vx) as (Hex & _).
    destruct (valid_finite _ _ _ Vy) as (Hey & _).
    simpl SFsub. fold (aligned_mantissa sx mx ex (Z.min ex ey)).
    fold (aligned_mantissa sy my ey (Z.min ex ey)).
    pose proof (aligned_mantissa_value sx mx ex ey ltac:(lia) ltac:(lia)) as Hx.
    pose proof (aligned_mantissa_value sy my ey ex ltac:(lia) ltac:(lia)) as Hy.
    rewrite (Z.min_comm ey ex) in Hy.
    change (key (S754_finite sx mx ex)) with (cond_Zopp sx (Zpos mx * sc ex)).
    change (key (S754_finite sy my ey)) with (cond_Zopp sy (Zpos my * sc ey)).
    change (IntDef.Z.min ex ey) with (Z.min ex ey).
    rewrite <- Hx, <- Hy, <- Z.mul_sub_distr_r.
    apply binary_normalize_pos. lia.
Qed.


(** *** Arithmetic of primitive floats *)

Lemma isFinite_numeric f : isFinite f = true -> is_nan f = false.
Proof.
  unfold isFinite. rewrite is_nan_number. destruct (Prim2SF f); simpl; congruence.
Qed.

Lemma huge_pos : 0 < huge.
Proof. unfold huge. apply Z.pow_pos_nonneg; lia. Qed.

Lemma val_bounds f : - huge <= val f <= huge.
Proof.
  pose proof huge_pos as T. unfold val.
  pose proof (Prim2SF_valid f) as V.
  destruct (Prim2SF f) as [s | s | | s m e]; unfold key, cond_Zopp; try lia.
  - destruct s; lia.
  - pose proof (finite_magnitude _ _ _ V). destruct s; lia.
Qed.

Lemma isFinite_val f : is_nan f = false -> - huge < val f < huge -> isFinite f = true.
Proof.
  unfold isFinite, val. rewrite is_nan_number.
  destruct (Prim2SF f) as [s | s | | s m e]; unfold finite_like, number_like, negb, key, cond_Zopp;
    try congruence.
  destruct s; lia.
Qed.

Lemma val_isFinite f : isFinite f = true -> - huge < val f < huge.
Proof.
  pose proof huge_pos as T. unfold isFinite, val.
  pose proof (Prim2SF_valid f) as V.
  destruct (Prim2SF f) as [s | s | | s m e]; unfold finite_like, key, cond_Zopp;
    try discriminate; try lia.
  pose proof (finite_magnitude _ _ _ V). destruct s; lia.
Qed.

Lemma positive_shape b :
  is_nan b = false -> 0 < val b < huge ->
  exists m e, Prim2SF b = S754_finite false m e.
Proof.
  unfold val. rewrite is_nan_number.
  destruct (Prim2SF b) as [s | s | | s m e]; unfold number_like, negb, key, cond_Zopp;
    try congruence; try lia.
  - destruct s; lia.
  - destruct s; [| intros; eauto]. intros _ H.
    assert (0 <= 2 ^ (e + 1074)) by (apply Z.pow_nonneg; lia). nia.
Qed.

Lemma sub_numeric_r a y : is_nan a = false -> isFinite y = true -> is_nan (a - y) = false.
Proof.
  intros Ha Hy. apply numeric_number. rewrite sub_spec.
  apply SFsub_number; [apply numeric_number; exact Ha | exact Hy].
Qed.

Lemma sub_numeric_l a y : isFinite a = true -> is_nan y = false -> is_nan (a - y) = false.
Proof.
  intros Ha Hy. apply numeric_number. rewrite sub_spec.
  apply SFsub_number_l; [exact Ha | apply numeric_number; exact Hy].
Qed.


(** For finite [a] and [y] and a positive finite double [b]: bounds by [b]
    on the exact difference or sum hold for the computed one. *)
Section Thresholds.
Variables a y b : float.
Hypothesis a_finite : isFinite a = true.
Hypothesis y_finite : isFinite y = true.
Hypothesis b_numeric : is_nan b = false.
Hypothesis b_positive : 0 < val b < huge.

Lemma sub_lower : val b <= val a - val y -> val b <= val (a - y).
Proof.
  destruct (positive_shape b b_numeric b_positive) as (m & e & E).
  pose proof (Prim2SF_valid b) as V. rewrite E in V.
  assert (Kb : val b = Zpos m * sc e) by (unfold val; rewrite E; reflexivity).
  assert (Ks : val (a - y) = key (SFsub prec emax (Prim2SF a) (Prim2SF y)))
    by (unfold val; rewrite sub_spec; reflexivity).
  rewrite Kb, Ks. unfold val.
  apply (SFsub_bounds _ _ (Prim2SF_valid a) (Prim2SF_valid y) a_finite y_finite _ _ _ V).
Qed.

Lemma sub_upper : val a - val y <= val b -> val (a - y) <= val b.
Proof.
  destruct (positive_shape b b_numeric b_positive) as (m & e & E).
  pose proof (Prim2SF_valid b) as V. rewrite E in V.
  assert (Kb : val b = Zpos m * sc e) by (unfold val; rewrite E; reflexivity).
  assert (Ks : val (a - y) = key (SFsub prec emax (Prim2SF a) (Prim2SF y)))
    by (unfold val; rewrite sub_spec; reflexivity).
  rewrite Kb, Ks. unfold val.
  apply (SFsub_bounds _ _ (Prim2SF_valid a) (Prim2SF_valid y) a_finite y_finite _ _ _ V).
Qed.


Lemma add_lower : val b <= val a + val y -> val b <= val (a + y).
Proof.
  destruct (positive_shape b b_numeric b_positive) as (m & e & E).
  pose proof (Prim2SF_valid b) as V. rewrite E in V.
  assert (Kb : val b = Zpos m * sc e) by (unfold val; rewrite E; reflexivity).
  assert (Ks : val (a + y) = key (SFadd prec emax (Prim2SF a) (Prim2SF y)))
    by (unfold val; rewrite add_spec; reflexivity).
  rewrite Kb, Ks. unfold val.
  apply (SFadd_bounds _ _ (Prim2SF_valid a) (Prim2SF_valid y) a_finite y_finite _ _ _ V).
Qed.

End Thresholds.

Lemma sub_nonneg a y :
  isFinite a = true -> isFinite y = true -> val y <= val a -> 0 <= val (a - y).
Proof.
  intros Ha Hy H. unfold val at 1. rewrite sub_spec.
  apply SFsub_pos; try apply Prim2SF_valid; try assumption. unfold val in H. lia.
Qed.

Lemma div_numeric_r a d :
  is_nan a = false -> isFinite d = true -> val d <> 0 -> is_nan (a / d) = false.
Proof.
  intros Ha Hd Hz. apply numeric_number. rewrite div_spec.
  apply SFdiv_number_r; [apply numeric_number; exact Ha |].
  unfold isFinite in Hd. unfold val in Hz.
  destruct (Prim2SF d); simpl in *; try discriminate; try lia; exact I.
Qed.



(** [Math.min] returns its first argument itself when it is the smaller
    number, or an equal one that is not zero. *)
Lemma Math_min_left a b :
  is_nan a = false -> is_nan b = false -> val a <= val b -> val a <> 0 ->
  Math_min a b = a.
Proof.
  intros Ha Hb H Hz. unfold Math_min. rewrite Ha, Hb. simpl.
  destruct (a <? b)%float; [reflexivity |].
  destruct (b <? a)%float eqn:L.
  - apply (ltb_val b a Hb Ha) in L. lia.
  - rewrite classify_spec. unfold val in Hz.
    destruct (Prim2SF a) as [s | s | | s m e]; try (simpl in Hz; lia).
    + destruct s; reflexivity.
    + unfold SF64classify, SFclassify. destruct s; destruct (Z.eqb _ _); reflexivity.
Qed.

End DoublesTheory.

(** ** The crop rectangle *)

Section CropFacts.
Import ImageCropper.
Local Open Scope float_scope.

Lemma leb_elim a b :
  (a <=? b) = true -> is_nan a = false /\ is_nan b = false /\ (val a <= val b)%Z.
Proof.
  intros H. destruct (leb_numeric a b H) as [Ha Hb].
  split; [exact Ha | split; [exact Hb |]]. apply (leb_val a b Ha Hb). exact H.
Qed.

Lemma leb_intro a b :
  is_nan a = false -> is_nan b = false -> (val a <= val b)%Z -> (a <=? b) = true.
Proof. intros Ha Hb H. apply (leb_val a b Ha Hb). exact H. Qed.

Lemma val_0 : val 0 = 0%Z.
Proof. reflexivity. Qed.

Lemma val_100 : (0 < val 100 < huge)%Z.
Proof. split; vm_compute; reflexivity. Qed.

Lemma val_20 : (0 < val 20)%Z /\ (0 < val 80)%Z /\ (val 20 + val 80 = val 100)%Z.
Proof. split; [| split]; vm_compute; reflexivity. Qed.

Lemma bounded_finite f :
  is_nan f = false -> (0 <= val f)%Z -> (val f <= val 100)%Z -> isFinite f = true.
Proof.
  intros N H0 H1. pose proof val_100. pose proof huge_pos.
  apply isFinite_val; [exact N | lia].
Qed.

(** [Math.max(0, Math.min(t, hi))] on numbers. *)
Lemma recentre_val t hi :
  is_nan t = false -> is_nan hi = false ->
  is_nan (Math_max 0 (Math_min t hi)) = false /\
  val (Math_max 0 (Math_min t hi)) = Z.max 0 (Z.min (val t) (val hi)).
Proof.
  intros Ht Hhi.
  destruct (Math_min_val t hi Ht Hhi) as [N1 V1].
  destruct (Math_max_val 0 (Math_min t hi) eq_refl N1) as [N2 V2].
  split; [exact N2 |]. rewrite V2, V1, val_0. reflexivity.
Qed.


Lemma initialCrop_placed limit : (10 <=? limit) = true -> placed limit initialCrop.
Proof. intros H. repeat (split; try reflexivity). exact H. Qed.

(** The new corner: a selection 80 wide stays so, [x] lands in [0, 20] and
    [y] between 0 and [100 - ch], for the height [ch] the handler holds. *)
Lemma updateSelection_placed ch px py prev :
  is_nan ch = false -> (0 <= val ch)%Z -> (val ch <= val 100)%Z ->
  is_nan px = false -> isFinite py = true ->
  width prev = 80 ->
  placed (100 - ch) (updateSelection ch px py prev) /\ (100 - ch <=? 100) = true.
Proof.
  intros Nch H0 H1 Npx Fpy Hw.
  assert (Fch : isFinite ch = true) by (apply bounded_finite; assumption).
  assert (Nhi : is_nan (100 - ch) = false) by (apply sub_numeric_l; [reflexivity | exact Nch]).
  assert (Vhi0 : (0 <= val (100 - ch))%Z) by (apply sub_nonneg; [reflexivity | exact Fch | exact H1]).
  assert (Vhi1 : (val (100 - ch) <= val 100)%Z).
  { apply sub_upper; try assumption; try reflexivity; [apply val_100 | lia]. }
  assert (Nx : is_nan (px - 80 / 2) = false) by (apply sub_numeric_r; [exact Npx | reflexivity]).
  assert (Nh2 : is_nan (ch / 2) = false).
  { apply div_numeric_r; [exact Nch | reflexivity | vm_compute; discriminate]. }
  assert (Ny : is_nan (py - ch / 2) = false) by (apply sub_numeric_l; assumption).
  destruct (recentre_val (px - 80 / 2) 20 Nx eq_refl) as [Nx' Vx'].
  destruct (recentre_val (py - ch / 2) (100 - ch) Ny Nhi) as [Ny' Vy'].
  pose proof val_20 as [P20 _].
  unfold updateSelection. rewrite Hw. unfold placed. cbn [x y width].
  change (100 - 80) with 20.
  split; [| apply leb_intro; [exact Nhi | reflexivity | exact Vhi1]].
  split; [reflexivity |].
  split; [apply leb_intro; [reflexivity | exact Nx' | rewrite Vx', val_0; lia] |].
  split; [apply leb_intro; [exact Nx' | reflexivity | rewrite Vx'; lia] |].
  split; [apply leb_intro; [reflexivity | exact Ny' | rewrite Vy', val_0; lia] |].
  apply leb_intro; [exact Ny' | exact Nhi | rewrite Vy'; lia].
Qed.

Section AnyRatio.
Variable R : float.
Hypothesis R_positive : (0 <? R) = true.





End AnyRatio.

End CropFacts.

(** ** The crop rectangle under the ratios of [PLATFORM_CONFIG] *)

Section PlatformRatio.
Import ImageCropper.
Local Open Scope float_scope.

Variable p : Platform.

Let R : float := numericRatio p.
Let full : float := 80 / R.        (* 45 for 16/9, 80 for 1 *)
Let room : float := 100 - full.    (* 55 for 16/9, 20 for 1 *)

Lemma numericRatio_positive : (0 <? R) = true.
Proof. unfold R. destruct p; reflexivity. Qed.

Lemma full_height_number :
  is_nan full = false /\ (0 < val full <= val 100)%Z /\ (val full + val room = val 100)%Z.
Proof.
  unfold room, full, R.
  destruct p; (split; [reflexivity | split; [split |]]; vm_compute; try reflexivity;
               discriminate).
Qed.

Lemma room_bounds : (10 <=? room) = true /\ (room <=? 100) = true.
Proof. unfold room, full, R. destruct p; split; reflexivity. Qed.

Lemma full_width : full * R = 80 /\ (80 / full =? R) = true.
Proof. unfold full, R. destruct p; split; reflexivity. Qed.

(** With at most [room] above it the selection has its full height. *)
Lemma platform_height c : placed room c -> clampedHeight R c = full.
Proof.
  intros (Hw & _ & _ & Hy0 & Hy1).
  destruct full_height_number as (Nf & Vf & Vsum).
  destruct (leb_elim _ _ Hy0) as (_ & Ny & Vy0). rewrite val_0 in Vy0.
  destruct (leb_elim _ _ Hy1) as (_ & Nr & Vy1).
  pose proof val_100 as V100.
  assert (Fy : isFinite (y c) = true).
  { apply isFinite_val; [exact Ny | lia]. }
  unfold clampedHeight, height. rewrite Hw. fold R. fold full.
  apply Math_min_left.
  - exact Nf.
  - apply sub_numeric_l; [reflexivity | exact Ny].
  - apply sub_lower; try assumption; try reflexivity; lia.
  - lia.
Qed.

Lemma platform_dispatch (m : Mounted) (ev : Event) :
  finite_pointer ev ->
  placed room (crop (current m)) -> placed room (crop (rendered m)) ->
  placed room (crop (current (dispatch R m ev))) /\
  placed room (crop (rendered (dispatch R m ev))).
Proof.
  intros Hev Hc Hr.
  destruct ev as [| | | containerRef e |]; cbn [dispatch current rendered crop];
    try (split; assumption).
  split; [| exact Hr].
  unfold handleMouseMove.
  destruct (isDragging (rendered m)); [| exact Hc].
  destruct containerRef as [rect |]; [| exact Hc].
  destruct Hev as [Fx Fy]. cbn [crop].
  rewrite (platform_height _ Hr).
  destruct full_height_number as (Nf & Vf & Vsum).
  exact (proj1 (updateSelection_placed full _ _ (crop (current m)) Nf ltac:(lia) ltac:(lia)
                  (isFinite_numeric _ Fx) Fy (proj1 Hc))).
Qed.

Lemma platform_run (events : list Event) :
  Forall finite_pointer events ->
  forall m,
    placed room (crop (current m)) -> placed room (crop (rendered m)) ->
    placed room (crop (current (run R events m))) /\
    placed room (crop (rendered (run R events m))).
Proof.
  induction 1 as [| ev events Hev _ IH]; intros m Hc Hr.
  - split; assumption.
  - destruct (platform_dispatch m ev Hev Hc Hr) as [Hc' Hr'].
    exact (IH (dispatch R m ev) Hc' Hr').
Qed.


End PlatformRatio.

(** ** The selection over a drag *)

Section CropClaims.
Import ImageCropper.
Local Open Scope float_scope.




(** Why the pointers are taken at finite percentages: over a container
    without width a pointer on its left edge is at 0/0 percent, and the move
    leaves an [x] that is not a number. *)
Lemma selection_after_nan_pointer :
  let flat := mkRect 0 0 0 100 in
  let events := [MouseDown; Render; MouseMove (Some flat) (mkMouse 0 50)] in
  let c := crop (current (run 1 events mounted)) in
  is_nan (fst (pointer_percent flat (mkMouse 0 50))) = true /\
  is_nan (x c) = true /\
  (0 <=? x c) = false.
Proof. vm_compute. split; [| split]; reflexivity. Qed.

(** ** Repositioning *)

Lemma recentre_clamp t hi :
  is_nan t = false -> (0 <=? hi) = true ->
  (Math_max 0 (Math_min t hi) =? clamp t 0 hi) = true.
Proof.
  intros Nt Hhi.
  destruct (leb_elim _ _ Hhi) as (_ & Nhi & Vhi). rewrite val_0 in Vhi.
  destruct (recentre_val t hi Nt Nhi) as [N V].
  unfold clamp.
  destruct (t <? 0) eqn:L1.
  - apply (ltb_val t 0 Nt eq_refl) in L1. rewrite val_0 in L1.
    apply (eqb_val _ 0 N eq_refl). rewrite V, val_0. lia.
  - assert (V1 : (0 <= val t)%Z).
    { destruct (Z.lt_ge_cases (val t) 0) as [C | C]; [| exact C].
      rewrite <- val_0 in C. apply (ltb_val t 0 Nt eq_refl) in C. congruence. }
    destruct (hi <? t) eqn:L2.
    + apply (ltb_val hi t Nhi Nt) in L2.
      apply (eqb_val _ hi N Nhi). rewrite V. lia.
    + assert (V2 : (val t <= val hi)%Z).
      { destruct (Z.lt_ge_cases (val hi) (val t)) as [C | C]; [| lia].
        apply (ltb_val hi t Nhi Nt) in C. congruence. }
      apply (eqb_val _ t N Nt). rewrite V. lia.
Qed.

(** C3, as the code has it.  The updater keeps [width] and sets [x] to
    [clamp(px - width/2, 0, 100 - width)] and [y] to
    [clamp(py - ch/2, 0, 100 - ch)] whenever the clamped operands are
    numbers and the upper bounds are not negative, where [ch] is the
    [clampedHeight] of the render the handler was created in, not the one
    of the selection it updates; with the pointer at (5, 5), a width of 80
    and a height of 45 it gives [x = 0] and [y = 0]. *)
Theorem updateSelection_recentres (ch px py : float) (prev : Crop) :
  is_nan (px - width prev / 2) = false -> (0 <=? 100 - width prev) = true ->
  is_nan (py - ch / 2) = false -> (0 <=? 100 - ch) = true ->
  width (updateSelection ch px py prev) = width prev /\
  (x (updateSelection ch px py prev) =? clamp (px - width prev / 2) 0 (100 - width prev))
    = true /\
  (y (updateSelection ch px py prev) =? clamp (py - ch / 2) 0 (100 - ch)) = true /\
  (forall targetRatio shown rect e s,
     isDragging shown = true ->
     crop (handleMouseMove targetRatio shown (Some rect) e s) =
       updateSelection (clampedHeight targetRatio (crop shown))
         (fst (pointer_percent rect e)) (snd (pointer_percent rect e)) (crop s)) /\
  (forall x0 y0, updateSelection 45 5 5 (mkCrop x0 y0 80) = mkCrop 0 0 80).
Proof.
  intros Nx Hx Ny Hy.
  split; [reflexivity |].
  split; [exact (recentre_clamp _ _ Nx Hx) |].
  split; [exact (recentre_clamp _ _ Ny Hy) |].
  split.
  - intros targetRatio shown rect e s D. unfold handleMouseMove. rewrite D. reflexivity.
  - intros x0 y0. reflexivity.
Qed.

Lemma updateSelection_recentres_witness :
  x (updateSelection 45 5 5 initialCrop) = 0 /\
  y (updateSelection 45 5 5 initialCrop) = 0 /\
  (y (updateSelection 45 50 50 initialCrop) =? clamp (50 - 45 / 2) 0 (100 - 45)) = true.
Proof.
  destruct (updateSelection_recentres 45 50 50 initialCrop eq_refl eq_refl eq_refl eq_refl)
    as (_ & _ & Hy & _ & Hs).
  split; [| split].
  - exact (f_equal x (Hs 10 10)).
  - exact (f_equal y (Hs 10 10)).
  - exact Hy.
Defined.

(** C3 as stated fails: the new [y] is not a function of the selection it
    updates and the pointer.  At the ratio 1/2, a first move to the top edge
    brings [y] to 0 and the height of the selection to 100; a second move
    before the next render still centres on the height 90 of the render the
    handler belongs to and gives [y = 5], where the formula on the current
    selection gives 0. *)
Lemma updateSelection_uses_rendered_height :
  let targetRatio := 0.5 in
  let before :=
    run targetRatio [MouseDown; Render; MouseMove (Some unit_container) (mkMouse 50 0)]
      mounted in
  let after := dispatch targetRatio before (MouseMove (Some unit_container) (mkMouse 50 50)) in
  let ch := clampedHeight targetRatio (crop (current before)) in
  pointer_percent unit_container (mkMouse 50 50) = (50, 50) /\
  y (crop (current before)) = 0 /\
  ch = 100 /\
  clampedHeight targetRatio (crop (rendered before)) = 90 /\
  y (crop (current after)) = 5 /\
  clamp (50 - ch / 2) 0 (100 - ch) = 0.
Proof. vm_compute. repeat (split; try reflexivity). Qed.

End CropClaims.

(** ** Rational arithmetic used below *)

(** [lra] reads a division as an opaque term: divisions by a literal are
    turned into products first. *)
Ltac literal_divisions :=
  unfold Qdiv in *;
  repeat match goal with
  | |- context [Qinv (Qmake ?n ?d)] =>
      let v := eval compute in (Qinv (Qmake n d)) in
      change (Qinv (Qmake n d)) with v in *
  | _ : context [Qinv (Qmake ?n ?d)] |- _ =>
      let v := eval compute in (Qinv (Qmake n d)) in
      change (Qinv (Qmake n d)) with v in *
  end.

Ltac qarith := literal_divisions; lra.

(** ** Canvas dimensions *)

Lemma IntegerPart_floor (v : Q) : 0 <= v -> Canvas2D.IntegerPart v = Qfloor v.
Proof.
  destruct v as [n d]. unfold Qle, Canvas2D.IntegerPart, Qfloor; simpl.
  intros Hn. apply Z.quot_div_nonneg; lia.
Qed.

(** A non-negative number within the range of the attribute is stored as
    its floor. *)
Lemma reflected_floor (default : Z) (v : Q) :
  0 <= v -> v <= 2147483647 -> Canvas2D.reflected default v = Qfloor v.
Proof.
  intros H0 Hmax.
  assert (H0' : (0 <= Qfloor v)%Z).
  { rewrite <- (Qfloor_Z 0). apply Qfloor_resp_le. exact H0. }
  assert (Hmax' : (Qfloor v <= 2147483647)%Z).
  { rewrite <- (Qfloor_Z 2147483647). apply Qfloor_resp_le. exact Hmax. }
  unfold Canvas2D.reflected, Canvas2D.ToUnsignedLong.
  rewrite (IntegerPart_floor v H0).
  rewrite Z.mod_small by lia.
  destruct (Z.leb_spec (Qfloor v) 2147483647); [reflexivity | lia].
Qed.

(** [drawImage] draws or not, it never resizes. *)
Lemma drawImage_size (img : Canvas2D.HTMLImageElement) (sx sy sw sh dx dy dw dh : float)
    (canvas : Canvas2D.Canvas) :
  Canvas2D.width (ImageCropper.drawImage img sx sy sw sh dx dy dw dh canvas) =
    Canvas2D.width canvas /\
  Canvas2D.height (ImageCropper.drawImage img sx sy sw sh dx dy dw dh canvas) =
    Canvas2D.height canvas.
Proof.
  unfold ImageCropper.drawImage.
  destruct (forallb isFinite _); [| split; reflexivity].
  destruct (_ || _); split; reflexivity.
Qed.

(** C2, as the code has it.  [applyCrop] stores the doubles [sourceWidth]
    and [sourceHeight] unrounded into [canvas.width] and [canvas.height],
    which truncate them: whenever both lie between 0 and 2147483647 the
    picture handed over is [floor sourceWidth] by [floor sourceHeight].
    For a source of 1000 by 1000, the ratio 16/9 and the initial selection
    the region copied is the one from (100, 100), 800 wide and 450 high,
    and the picture is 800 by 450. *)
Theorem applyCrop_dimensions (targetRatio : float) (img : Canvas2D.HTMLImageElement)
    (c : ImageCropper.Crop) :
  let sourceWidth :=
    (ImageCropper.clampedWidth targetRatio c / 100 * of_Z (Canvas2D.naturalWidth img))%float in
  let sourceHeight :=
    (ImageCropper.clampedHeight targetRatio c / 100 * of_Z (Canvas2D.naturalHeight img))%float in
  0 <= value sourceWidth <= 2147483647 ->
  0 <= value sourceHeight <= 2147483647 ->
  (exists content,
     ImageCropper.applyCrop targetRatio (Some img) true c =
       Delivered
         (Canvas2D.mkDataURL (Qfloor (value sourceWidth)) (Qfloor (value sourceHeight))
            content)) /\
  (forall src : string,
     let square := Canvas2D.mkImage src 1000 1000 in
     ImageCropper.applyCrop (16 / 9) (Some square) true ImageCropper.initialCrop =
       Delivered
         (Canvas2D.mkDataURL 800 450
            [(Canvas2D.default_context,
              Canvas2D.DrawImageRegion square 100 100 800 450 0 0 800 450)])).
Proof.
  intros sourceWidth sourceHeight [Hw0 Hw1] [Hh0 Hh1]. split.
  - unfold ImageCropper.applyCrop. cbn [negb].
    fold sourceWidth. fold sourceHeight.
    eexists. unfold Canvas2D.toDataURL.
    destruct (drawImage_size img
                (ImageCropper.x c / 100 * of_Z (Canvas2D.naturalWidth img))%float
                (ImageCropper.y c / 100 * of_Z (Canvas2D.naturalHeight img))%float
                sourceWidth sourceHeight 0%float 0%float sourceWidth sourceHeight
                (Canvas2D.set_height (value sourceHeight)
                   (Canvas2D.set_width (value sourceWidth) Canvas2D.createElement)))
      as [Ew Eh].
    rewrite Ew, Eh. cbn [Canvas2D.set_height Canvas2D.set_width Canvas2D.width Canvas2D.height].
    rewrite (reflected_floor 300 _ Hw0 Hw1), (reflected_floor 150 _ Hh0 Hh1).
    reflexivity.
  - intros src square. reflexivity.
Qed.

Lemma applyCrop_dimensions_witness :
  let img := Canvas2D.mkImage "data:image/png;base64" 1001 1001 in
  exists content,
    ImageCropper.applyCrop 1 (Some img) true ImageCropper.initialCrop =
      Delivered (Canvas2D.mkDataURL 800 800 content).
Proof.
  intros img.
  assert (B : 0 <= value (ImageCropper.clampedWidth 1 ImageCropper.initialCrop / 100 *
                          of_Z (Canvas2D.naturalWidth img))%float <= 2147483647).
  { split; apply Qle_bool_imp_le; reflexivity. }
  exact (proj1 (applyCrop_dimensions 1 img ImageCropper.initialCrop B B)).
Defined.

(** C2 as stated fails: nothing is rounded.  On a source of 1001 by 1001
    with the ratio 1 and the initial selection, [sourceWidth] is the double
    next to 800.8; the picture is 800 wide, where [Math.round] gives 801. *)
Lemma applyCrop_not_rounded :
  let img := Canvas2D.mkImage "data:image/png;base64" 1001 1001 in
  let sourceWidth :=
    (ImageCropper.clampedWidth 1 ImageCropper.initialCrop / 100 *
     of_Z (Canvas2D.naturalWidth img))%float in
  (800.5 <? sourceWidth)%float = true /\
  Math_round (value sourceWidth) = 801%Z /\
  match ImageCropper.applyCrop 1 (Some img) true ImageCropper.initialCrop with
  | Delivered url => Canvas2D.url_width url = 800%Z /\ Canvas2D.url_height url = 800%Z
  | _ => False
  end.
Proof. vm_compute. split; [| split; [| split]]; reflexivity. Qed.

(** ** The font scenario on doubles *)

Lemma binary64_font_scenario : Binary64.effectivePx 32 1000 = 64%float.
Proof. vm_compute. reflexivity. Qed.

(** ** The overlay *)

Lemma reflected_Z (default n : Z) :
  (0 <= n <= 2147483647)%Z -> Canvas2D.reflected default (inject_Z n) = n.
Proof.
  intros [H0 H1]. rewrite reflected_floor.
  - apply Qfloor_Z.
  - change 0 with (inject_Z 0). rewrite <- Zle_Qle. exact H0.
  - change 2147483647 with (inject_Z 2147483647). rewrite <- Zle_Qle. exact H1.
Qed.

Section Overlay.
Import ImageEditor.
Variable s : State.
Variable img : Canvas2D.HTMLImageElement.

Let canvas_width : Z := Canvas2D.reflected 300 (inject_Z (Canvas2D.naturalWidth img)).
Let canvas_height : Z := Canvas2D.reflected 150 (inject_Z (Canvas2D.naturalHeight img)).

Lemma onload_without_text (canvas : Canvas2D.Canvas) :
  text s = ""%string ->
  onload s img canvas =
  Canvas2D.mkCanvas canvas_width canvas_height Canvas2D.default_context
    [(Canvas2D.default_context, Canvas2D.DrawImage img 0 0)].
Proof.
  intros Ht. unfold onload. rewrite Ht. reflexivity.
Qed.

Lemma onload_with_text (canvas : Canvas2D.Canvas) :
  text s <> ""%string ->
  onload s img canvas =
  Canvas2D.mkCanvas canvas_width canvas_height (text_context s img)
    [(Canvas2D.default_context, Canvas2D.DrawImage img 0 0);
     (text_context s img,
      Canvas2D.FillText (text s)
        (inject_Z canvas_width / 2)
        (inject_Z canvas_height * inject_Z (positionY s) / 100))].
Proof.
  intros Ht. unfold onload.
  destruct (text s) as [| a t] eqn:E; [congruence |].
  reflexivity.
Qed.

Lemma onload_forgets (c1 c2 : Canvas2D.Canvas) : onload s img c1 = onload s img c2.
Proof.
  destruct (string_dec (text s) "") as [Ht | Ht].
  - rewrite !onload_without_text by exact Ht. reflexivity.
  - rewrite !onload_with_text by exact Ht. reflexivity.
Qed.

Lemma onload_text_layers (canvas : Canvas2D.Canvas) :
  (text_layers (onload s img canvas) <= 1)%nat.
Proof.
  destruct (string_dec (text s) "") as [Ht | Ht].
  - rewrite onload_without_text by exact Ht. unfold text_layers; simpl. lia.
  - rewrite onload_with_text by exact Ht. unfold text_layers; simpl. lia.
Qed.

End Overlay.

(** C6. With an empty text the effect leaves on the canvas the source
    picture alone, at the source's size and with an untouched context (no
    fill, font, alignment or shadow is set and no text is drawn), whatever
    the canvas held before; saving then hands over exactly that picture and
    reports no error. *)
Theorem render_without_text (s : ImageEditor.State) (img : Canvas2D.HTMLImageElement)
    (canvas : Canvas2D.Canvas) :
  ImageEditor.text s = ""%string ->
  fits_canvas img ->
  ImageEditor.render (Some canvas) true (Some img) s = Some (source_surface img) /\
  ImageEditor.handleSave (ImageEditor.render (Some canvas) true (Some img) s) =
    Delivered
      (Canvas2D.mkDataURL (Canvas2D.naturalWidth img) (Canvas2D.naturalHeight img)
         [(Canvas2D.default_context, Canvas2D.DrawImage img 0 0)]) /\
  text_layers (source_surface img) = 0%nat.
Proof.
  intros Ht [Hw Hh].
  assert (E : ImageEditor.render (Some canvas) true (Some img) s = Some (source_surface img)).
  { simpl. rewrite (onload_without_text s img canvas Ht).
    rewrite (reflected_Z 300 _ Hw), (reflected_Z 150 _ Hh). reflexivity. }
  rewrite E. repeat split.
Qed.

Lemma render_without_text_witness :
  let img := Canvas2D.mkImage "data:image/png;base64" 1024 768 in
  let before := ImageEditor.onload
                  (ImageEditor.setText "Sale" ImageEditor.initialState) img
                  Canvas2D.createElement in
  ImageEditor.render (Some before) true (Some img) ImageEditor.initialState =
    Some (source_surface img).
Proof.
  intros img before.
  apply (render_without_text ImageEditor.initialState img before).
  - reflexivity.
  - unfold fits_canvas; simpl. lia.
Defined.

(** C7.  The effect is a function of the image and the style alone: run
    again on the canvas it has just drawn, with the same image and style,
    it leaves the same canvas; run after a render with another style, it
    leaves what it would leave on any canvas, and the canvas never shows
    more than one text.  What it leaves, after whatever was rendered
    before, is the source picture at its size with on it the text of the
    current style only, none when that text is empty. *)
Theorem render_idempotent (s s' : ImageEditor.State) (img : Canvas2D.HTMLImageElement)
    (canvas canvas' : Canvas2D.Canvas) :
  let once := ImageEditor.render (Some canvas) true (Some img) s in
  ImageEditor.render once true (Some img) s = once /\
  ImageEditor.render (Some canvas') true (Some img) s = once /\
  ImageEditor.render (ImageEditor.render (Some canvas) true (Some img) s') true (Some img) s
    = once /\
  (forall result, once = Some result -> (text_layers result <= 1)%nat) /\
  (fits_canvas img -> once = Some (styled_surface s img)) /\
  (fits_canvas img ->
   ImageEditor.render (ImageEditor.render (Some canvas) true (Some img) s') true (Some img) s
     = Some (styled_surface s img)).
Proof.
  intros once. unfold once. cbn [ImageEditor.render negb].
  assert (F : forall c, fits_canvas img -> ImageEditor.onload s img c = styled_surface s img).
  { intros c [Hw Hh]. unfold styled_surface.
    destruct (ImageEditor.text s) as [| a t] eqn:Ht.
    - rewrite (onload_without_text s img c Ht).
      rewrite (reflected_Z 300 _ Hw), (reflected_Z 150 _ Hh). reflexivity.
    - rewrite (onload_with_text s img c) by (rewrite Ht; discriminate).
      rewrite (reflected_Z 300 _ Hw), (reflected_Z 150 _ Hh). reflexivity. }
  split; [| split; [| split; [| split; [| split]]]].
  - exact (f_equal Some (onload_forgets s img _ canvas)).
  - exact (f_equal Some (onload_forgets s img canvas' canvas)).
  - exact (f_equal Some (onload_forgets s img _ canvas)).
  - intros result E. injection E as <-. apply onload_text_layers.
  - intros Hf. exact (f_equal Some (F canvas Hf)).
  - intros Hf. exact (f_equal Some (F _ Hf)).
Qed.

Lemma render_idempotent_witness :
  let img := Canvas2D.mkImage "data:image/png;base64" 1024 768 in
  let sale := ImageEditor.setText "Sale" ImageEditor.initialState in
  let open := ImageEditor.setText "Open" ImageEditor.initialState in
  ImageEditor.render
    (ImageEditor.render (Some Canvas2D.createElement) true (Some img) sale)
    true (Some img) open = Some (overlay_surface open img) /\
  text_layers (overlay_surface open img) = 1%nat.
Proof.
  intros img sale open.
  assert (Hf : fits_canvas img) by (unfold fits_canvas; simpl; lia).
  split; [| reflexivity].
  exact (proj2 (proj2 (proj2 (proj2 (proj2
           (render_idempotent open sale img Canvas2D.createElement Canvas2D.createElement)))))
         Hf).
Defined.

(** C8. Whenever a text is drawn, its font size is
    [fontSize * (naturalWidth / 500)]; a size of 32 on an image 1000 wide
    gives 64. *)
Theorem render_font_size (s : ImageEditor.State) (img : Canvas2D.HTMLImageElement)
    (canvas : Canvas2D.Canvas) :
  ImageEditor.text s <> ""%string ->
  exists ctx tx ty,
    In (ctx, Canvas2D.FillText (ImageEditor.text s) tx ty)
       (Canvas2D.drawn (ImageEditor.onload s img canvas)) /\
    Canvas2D.font_size_px (Canvas2D.font ctx) ==
      inject_Z (ImageEditor.fontSize s) * (inject_Z (Canvas2D.naturalWidth img) / 500) /\
    (ImageEditor.fontSize s = 32%Z -> Canvas2D.naturalWidth img = 1000%Z ->
     Canvas2D.font_size_px (Canvas2D.font ctx) == 64).
Proof.
  intros Ht. rewrite (onload_with_text s img canvas Ht).
  eexists _, _, _. split; [right; left; reflexivity |].
  split; [reflexivity |].
  intros Hs Hw. simpl. rewrite Hs, Hw. reflexivity.
Qed.

Lemma render_font_size_witness :
  let s := ImageEditor.setText "Launch day" ImageEditor.initialState in
  let img := Canvas2D.mkImage "" 1000 1000 in
  exists ctx tx ty,
    In (ctx, Canvas2D.FillText "Launch day" tx ty)
       (Canvas2D.drawn (ImageEditor.onload s img Canvas2D.createElement)) /\
    Canvas2D.font_size_px (Canvas2D.font ctx) == 64.
Proof.
  intros s img.
  destruct (render_font_size s img Canvas2D.createElement)
    as (ctx & tx & ty & Hin & _ & H64).
  - discriminate.
  - exists ctx, tx, ty. split; [exact Hin |]. apply H64; reflexivity.
Defined.

(** C10. Whenever a text is drawn, its font weight is the weight of the
    selected font entry, or ['700'] when the entry has none; among [FONTS]
    only Display carries a weight (['900']), so Sans, Serif and Mono draw
    at ['700']. *)
Theorem render_font_weight (s : ImageEditor.State) (img : Canvas2D.HTMLImageElement)
    (canvas : Canvas2D.Canvas) :
  ImageEditor.text s <> ""%string ->
  exists ctx tx ty,
    In (ctx, Canvas2D.FillText (ImageEditor.text s) tx ty)
       (Canvas2D.drawn (ImageEditor.onload s img canvas)) /\
    (weight (ImageEditor.font s) = None ->
     Canvas2D.font_weight (Canvas2D.font ctx) = "700"%string) /\
    (In (ImageEditor.font s) FONTS ->
     Canvas2D.font_weight (Canvas2D.font ctx) =
       if String.eqb (name (ImageEditor.font s)) "Display" then "900"%string
       else "700"%string) /\
    (forall f, In f FONTS -> weight f <> None -> name f = "Display"%string).
Proof.
  intros Ht. rewrite (onload_with_text s img canvas Ht).
  eexists _, _, _. split; [right; left; reflexivity |].
  simpl. repeat split.
  - intros Hw. rewrite Hw. reflexivity.
  - intros [E | [E | [E | [E | []]]]]; rewrite <- E; reflexivity.
  - intros f [E | [E | [E | [E | []]]]] Hw; subst f; simpl in *; congruence.
Qed.

Lemma render_font_weight_witness :
  let s := ImageEditor.setFont (nth 2 FONTS (mkFont "" "" None))
             (ImageEditor.setText "Mono line" ImageEditor.initialState) in
  let img := Canvas2D.mkImage "" 640 480 in
  exists ctx tx ty,
    In (ctx, Canvas2D.FillText "Mono line" tx ty)
       (Canvas2D.drawn (ImageEditor.onload s img Canvas2D.createElement)) /\
    Canvas2D.font_weight (Canvas2D.font ctx) = "700"%string.
Proof.
  intros s img.
  destruct (render_font_weight s img Canvas2D.createElement)
    as (ctx & tx & ty & Hin & Hnone & _).
  - discriminate.
  - exists ctx, tx, ty. split; [exact Hin |]. apply Hnone. reflexivity.
Defined.

(** C5, as the code has it.  When the text is not empty it is drawn once,
    over the source picture, in the chosen colour, centred, with the shadow
    colour [rgba(0,0,0,0.5)] and a shadow blur of 10 canvas units for every
    source (the blur is a constant and is not scaled by the width of the
    source), at [x = width / 2] and [y = height * positionY / 100]. *)
Theorem render_text_placement (s : ImageEditor.State) (img : Canvas2D.HTMLImageElement)
    (canvas : Canvas2D.Canvas) :
  ImageEditor.text s <> ""%string ->
  fits_canvas img ->
  exists ctx tx ty,
    Canvas2D.drawn (ImageEditor.onload s img canvas) =
      [(Canvas2D.default_context, Canvas2D.DrawImage img 0 0);
       (ctx, Canvas2D.FillText (ImageEditor.text s) tx ty)] /\
    Canvas2D.fillStyle ctx = ImageEditor.color s /\
    Canvas2D.textAlign ctx = "center"%string /\
    Canvas2D.shadowColor ctx = "rgba(0,0,0,0.5)"%string /\
    Canvas2D.shadowBlur ctx = 10 /\
    tx == inject_Z (Canvas2D.naturalWidth img) / 2 /\
    ty == inject_Z (Canvas2D.naturalHeight img) * inject_Z (ImageEditor.positionY s) / 100.
Proof.
  intros Ht [Hw Hh]. rewrite (onload_with_text s img canvas Ht).
  eexists _, _, _. split; [reflexivity |].
  rewrite (reflected_Z 300 _ Hw), (reflected_Z 150 _ Hh).
  repeat split; reflexivity.
Qed.

Lemma render_text_placement_witness :
  let s := ImageEditor.setText "Hello" ImageEditor.initialState in
  let img := Canvas2D.mkImage "" 1000 800 in
  exists ctx tx ty,
    Canvas2D.drawn (ImageEditor.onload s img Canvas2D.createElement) =
      [(Canvas2D.default_context, Canvas2D.DrawImage img 0 0);
       (ctx, Canvas2D.FillText "Hello" tx ty)] /\
    Canvas2D.shadowBlur ctx = 10 /\ tx == 500 /\ ty == 400.
Proof.
  intros s img.
  destruct (render_text_placement s img Canvas2D.createElement)
    as (ctx & tx & ty & Hd & _ & _ & _ & Hb & Hx & Hy).
  - discriminate.
  - unfold fits_canvas; simpl. lia.
  - exists ctx, tx, ty. repeat split; [exact Hd | exact Hb | |].
    + rewrite Hx. reflexivity.
    + rewrite Hy. reflexivity.
Defined.

(** C5 as stated fails: on a source 1000 wide the font size is doubled
    (32 becomes 64) while the shadow blur stays 10, not [10 * (1000/500)]. *)
Lemma render_blur_not_scaled :
  let s := ImageEditor.setText "Hello" ImageEditor.initialState in
  let img := Canvas2D.mkImage "" 1000 800 in
  exists ctx tx ty,
    Canvas2D.drawn (ImageEditor.onload s img Canvas2D.createElement) =
      [(Canvas2D.default_context, Canvas2D.DrawImage img 0 0);
       (ctx, Canvas2D.FillText "Hello" tx ty)] /\
    Canvas2D.font_size_px (Canvas2D.font ctx) == 32 * (1000 / 500) /\
    ~ Canvas2D.shadowBlur ctx == 10 * (1000 / 500).
Proof.
  intros s img. eexists _, _, _. split; [reflexivity |].
  split; [reflexivity | discriminate].
Qed.

(** ** Failure paths *)

(** C4, as the code has it.  Mounting the cropper never fails: whatever the
    image and the ratio, it starts from [{x:10, y:10, width:80}] with no
    drag in progress; the ratios the application passes in, those of
    [PLATFORM_CONFIG], are all positive. *)
Theorem beginCrop_never_fails (imageUrl : string) (targetRatio : float) :
  ImageCropper.beginCrop imageUrl targetRatio =
    Delivered (ImageCropper.mkState ImageCropper.initialCrop false) /\
  (forall e, ImageCropper.beginCrop imageUrl targetRatio <> Raised e) /\
  (forall p : Platform, (0 <? numericRatio p)%float = true).
Proof.
  split; [reflexivity | split].
  - intros e. discriminate.
  - intros p. destruct p; reflexivity.
Qed.

(** C4 as stated fails: a ratio of zero is taken like any other. *)
Lemma beginCrop_accepts_zero_ratio :
  ImageCropper.beginCrop "data:image/png;base64" 0 =
    Delivered (ImageCropper.mkState (ImageCropper.mkCrop 10 10 80) false) /\
  ImageCropper.beginCrop "data:image/png;base64" 0 <> Raised InvalidInput.
Proof. split; [reflexivity | discriminate]. Qed.





(** * Further properties of the code *)

(** ** The mouse handlers of the cropper *)

Section CropHandlers.
Import ImageCropper.
Local Open Scope float_scope.

Variable R : float.

Lemma dispatch_width (m : Mounted) (ev : Event) :
  width (crop (current (dispatch R m ev))) = width (crop (current m)).
Proof.
  destruct ev as [| | | containerRef e |]; try reflexivity.
  cbn [dispatch current]. unfold handleMouseMove.
  destruct (isDragging (rendered m)); [| reflexivity].
  destruct containerRef; reflexivity.
Qed.

Lemma run_width (events : list Event) :
  forall m, width (crop (current (run R events m))) = width (crop (current m)).
Proof.
  induction events as [| ev events IH]; intros m; [reflexivity |].
  unfold run in *. cbn [fold_left]. rewrite IH. apply dispatch_width.
Qed.

(** Handlers created by a render without the button down move nothing. *)
Lemma run_without_render (events : list Event) :
  forallb (fun ev => negb (is_render ev)) events = true ->
  forall m,
    isDragging (rendered m) = false ->
    crop (current (run R events m)) = crop (current m).
Proof.
  induction events as [| ev events IH]; intros Hev m Hr; [reflexivity |].
  cbn [forallb] in Hev. apply andb_true_iff in Hev. destruct Hev as [Hn Hev].
  unfold run in *. cbn [fold_left].
  destruct ev as [| | | containerRef e |]; try discriminate;
    rewrite (IH Hev) by (cbn [dispatch rendered]; exact Hr);
    cbn [dispatch current crop]; try reflexivity.
  unfold handleMouseMove. rewrite Hr. reflexivity.
Qed.

Lemma run_without_press (events : list Event) :
  forallb (fun ev => negb (is_press ev)) events = true ->
  forall m,
    isDragging (current m) = false -> isDragging (rendered m) = false ->
    crop (current (run R events m)) = crop (current m).
Proof.
  induction events as [| ev events IH]; intros Hev m Hc Hr; [reflexivity |].
  cbn [forallb] in Hev. apply andb_true_iff in Hev. destruct Hev as [Hn Hev].
  unfold run in *. cbn [fold_left].
  destruct ev as [| | | containerRef e |]; try discriminate.
  - rewrite (IH Hev) by (cbn [dispatch current rendered isDragging]; auto). reflexivity.
  - rewrite (IH Hev) by (cbn [dispatch current rendered isDragging]; auto). reflexivity.
  - assert (E : dispatch R m (MouseMove containerRef e) = m).
    { cbn [dispatch]. unfold handleMouseMove. rewrite Hr. destruct m; reflexivity. }
    rewrite E. apply (IH Hev); assumption.
  - rewrite (IH Hev) by (cbn [dispatch current rendered isDragging]; auto). reflexivity.
Qed.

(** X1.  The selection moves only under a handler whose render saw the
    button down: a run of mouse events and re-renders without a press, or
    without a re-render (so that every handler is the one of the first
    render), leaves the selection where it was mounted; and whatever the
    run, the width of the selection is the one it had. *)
Theorem selection_moves_under_pressed_render (events : list Event) (m : Mounted) :
  (forallb (fun ev => negb (is_press ev)) events = true \/
   forallb (fun ev => negb (is_render ev)) events = true ->
   crop (current (run R events mounted)) = initialCrop) /\
  width (crop (current (run R events m))) = width (crop (current m)).
Proof.
  split; [| apply run_width].
  intros [H | H].
  - exact (run_without_press events H mounted eq_refl eq_refl).
  - exact (run_without_render events H mounted eq_refl).
Qed.

End CropHandlers.

Lemma selection_moves_under_pressed_render_witness :
  let move := ImageCropper.MouseMove (Some unit_container) (ImageCropper.mkMouse 90 90) in
  ImageCropper.crop
    (ImageCropper.current
       (ImageCropper.run 1 [ImageCropper.MouseDown; move; ImageCropper.MouseUp]
          ImageCropper.mounted)) = ImageCropper.initialCrop.
Proof.
  intros move.
  exact (proj1 (selection_moves_under_pressed_render 1
                  [ImageCropper.MouseDown; move; ImageCropper.MouseUp] ImageCropper.mounted)
           (or_intror eq_refl)).
Defined.

(** ** The crop box under the ratios of the application *)

Section PlatformBox.
Import ImageCropper.
Local Open Scope float_scope.

Variable p : Platform.

(** X2.  Under a ratio of [PLATFORM_CONFIG] the crop box keeps its size
    over any run of mouse events and re-renders with pointers at finite
    percentages: its height is always the full [80 / ratio] (45 for 16/9,
    80 for 1) and its width always 80, on the doubles of the code. *)
Theorem crop_box_keeps_its_size (events : list Event) (c : Crop) :
  Forall finite_pointer events ->
  c = crop (current (run (numericRatio p) events mounted)) \/
  c = crop (rendered (run (numericRatio p) events mounted)) ->
  clampedHeight (numericRatio p) c = 80 / numericRatio p /\
  clampedWidth (numericRatio p) c = 80 /\
  width c = 80 /\
  80 / numericRatio p = match p with Instagram => 80 | _ => 45 end.
Proof.
  intros Hev Hc.
  destruct (room_bounds p) as [L10 _].
  destruct (platform_run p events Hev mounted
              (initialCrop_placed _ L10) (initialCrop_placed _ L10)) as [P1 P2].
  assert (P : placed (100 - 80 / numericRatio p) c) by (destruct Hc as [-> | ->]; assumption).
  pose proof (platform_height p c P) as Hch.
  split; [exact Hch |].
  split; [unfold clampedWidth; rewrite Hch; exact (proj1 (full_width p)) |].
  split; [exact (proj1 P) |].
  destruct p; reflexivity.
Qed.

(** X3.  Under a ratio of [PLATFORM_CONFIG], a move handled by a render
    that saw the button down centres the box on the pointer whenever the
    pointer is far enough from the edges: for [40 <= px <= 60] and
    [h/2 <= py <= 100 - h/2], with [h = 80 / ratio] the height of the box,
    the new corner is [(px - 40, py - h/2)]. *)
Theorem move_follows_pointer (events : list Event) (rect : DOMRect) (e : MouseEvent) :
  let R := numericRatio p in
  let half := 80 / R / 2 in
  let m := run R events mounted in
  let px := fst (pointer_percent rect e) in
  let py := snd (pointer_percent rect e) in
  let c := crop (current (dispatch R m (MouseMove (Some rect) e))) in
  Forall finite_pointer events ->
  isDragging (rendered m) = true ->
  (40 <=? px) = true -> (px <=? 60) = true ->
  (half <=? py) = true -> (py <=? 100 - half) = true ->
  (x c =? px - 40) = true /\ (y c =? py - half) = true.
Proof.
  intros R half m px py c Hev Hd Hx0 Hx1 Hy0 Hy1.
  destruct (room_bounds p) as [L10 _].
  destruct (platform_run p events Hev mounted
              (initialCrop_placed _ L10) (initialCrop_placed _ L10)) as [P1 P2].
  fold R in P1, P2. fold m in P1, P2.
  pose proof (platform_height p _ P2) as Hch. fold R in Hch. fold m in Hch.
  destruct (leb_elim _ _ Hx0) as (_ & Npx & Vx0).
  destruct (leb_elim _ _ Hx1) as (_ & _ & Vx1).
  destruct (leb_elim _ _ Hy0) as (Nhalf & Npy & Vy0).
  destruct (leb_elim _ _ Hy1) as (_ & _ & Vy1).
  assert (K : (0 < val 40)%Z /\ (val 40 + val 20 = val 60)%Z /\ (val 60 < huge)%Z)
    by (split; [| split]; vm_compute; reflexivity).
  assert (Kh : (0 < val half)%Z /\ (val (100 - half) < huge)%Z /\
               (val (100 - half) = val half + val (100 - 80 / R))%Z /\
               (0 < val (100 - 80 / R))%Z /\ isFinite half = true /\
               is_nan (100 - 80 / R) = false).
  { unfold half, R. destruct p; (split; [| split; [| split; [| split; [| split]]]]);
      vm_compute; reflexivity. }
  destruct K as (K40 & K60 & Kh60). destruct Kh as (H0 & H1 & H2 & H3 & Fhalf & Nroom).
  pose proof val_20 as (P20 & P80 & S20). pose proof val_100 as V100. pose proof huge_pos.
  assert (Fpx : isFinite px = true) by (apply isFinite_val; [exact Npx | lia]).
  assert (Fpy : isFinite py = true) by (apply isFinite_val; [exact Npy | lia]).
  assert (Ntx : is_nan (px - 40) = false) by (apply sub_numeric_r; [exact Npx | reflexivity]).
  assert (Vtx0 : (0 <= val (px - 40))%Z) by (apply sub_nonneg; [exact Fpx | reflexivity | exact Vx0]).
  assert (Vtx1 : (val (px - 40) <= val 20)%Z).
  { apply sub_upper; try assumption; try reflexivity; lia. }
  assert (Nty : is_nan (py - half) = false) by (apply sub_numeric_r; assumption).
  assert (Vty0 : (0 <= val (py - half))%Z) by (apply sub_nonneg; assumption).
  assert (Vty1 : (val (py - half) <= val (100 - 80 / R))%Z).
  { apply sub_upper; try assumption; lia. }
  unfold c. cbn [dispatch current]. unfold handleMouseMove. rewrite Hd. cbn [crop].
  rewrite Hch. unfold updateSelection. cbn [x y]. rewrite (proj1 P1).
  fold px. fold py. change (80 / 2) with 40. change (100 - 80) with 20. fold half.
  destruct (recentre_val (px - 40) 20 Ntx eq_refl) as [Nx Vx].
  destruct (recentre_val (py - half) (100 - 80 / R) Nty Nroom) as [Ny Vy].
  split.
  - apply (eqb_val _ _ Nx Ntx). rewrite Vx. lia.
  - apply (eqb_val _ _ Ny Nty). rewrite Vy. lia.
Qed.

End PlatformBox.

Lemma crop_box_keeps_its_size_witness :
  let events :=
    [ImageCropper.MouseDown; ImageCropper.Render;
     ImageCropper.MouseMove (Some unit_container) (ImageCropper.mkMouse 100 100)] in
  let c := ImageCropper.crop
             (ImageCropper.current (ImageCropper.run (16 / 9) events ImageCropper.mounted)) in
  ImageCropper.clampedHeight (16 / 9) c = 45%float /\
  ImageCropper.clampedWidth (16 / 9) c = 80%float.
Proof.
  intros events c.
  assert (Hev : Forall finite_pointer events) by (repeat constructor).
  destruct (crop_box_keeps_its_size Twitter events c Hev (or_introl eq_refl))
    as (Hh & Hw & _ & _).
  split; [exact Hh | exact Hw].
Defined.

Lemma move_follows_pointer_witness :
  let events := [ImageCropper.MouseDown; ImageCropper.Render] in
  let e := ImageCropper.mkMouse 50 30 in
  let c := ImageCropper.crop
             (ImageCropper.current
                (ImageCropper.dispatch (16 / 9)
                   (ImageCropper.run (16 / 9) events ImageCropper.mounted)
                   (ImageCropper.MouseMove (Some unit_container) e))) in
  (ImageCropper.x c =? 10)%float = true /\ (ImageCropper.y c =? 7.5)%float = true.
Proof.
  intros events e c.
  assert (Hev : Forall finite_pointer events) by (repeat constructor).
  exact (move_follows_pointer LinkedIn events unit_container e Hev
           eq_refl eq_refl eq_refl eq_refl eq_refl).
Defined.

(** ** Where the overlay text is anchored *)

(** With the position slider within its range of 0 to 100, the text is
    anchored inside the picture: at the exact horizontal centre, and
    between the top and the bottom edge. *)
Theorem text_anchor_in_canvas (s : ImageEditor.State) (img : Canvas2D.HTMLImageElement)
    (canvas : Canvas2D.Canvas) :
  ImageEditor.text s <> ""%string ->
  fits_canvas img ->
  (0 <= ImageEditor.positionY s <= 100)%Z ->
  exists ctx tx ty,
    In (ctx, Canvas2D.FillText (ImageEditor.text s) tx ty)
       (Canvas2D.drawn (ImageEditor.onload s img canvas)) /\
    tx + tx == inject_Z (Canvas2D.naturalWidth img) /\
    0 <= ty /\ ty <= inject_Z (Canvas2D.naturalHeight img).
Proof.
  intros Ht [Hw Hh] [Hp0 Hp1]. rewrite (onload_with_text s img canvas Ht).
  eexists _, _, _. split; [right; left; reflexivity |].
  rewrite (reflected_Z 300 _ Hw), (reflected_Z 150 _ Hh).
  assert (Hn : 0 <= inject_Z (Canvas2D.naturalHeight img)).
  { change 0 with (inject_Z 0). rewrite <- Zle_Qle. apply Hh. }
  assert (Hq0 : 0 <= inject_Z (ImageEditor.positionY s)).
  { change 0 with (inject_Z 0). rewrite <- Zle_Qle. exact Hp0. }
  assert (Hq1 : inject_Z (ImageEditor.positionY s) <= 100).
  { change 100 with (inject_Z 100). rewrite <- Zle_Qle. exact Hp1. }
  set (n := inject_Z (Canvas2D.naturalHeight img)) in *.
  set (p := inject_Z (ImageEditor.positionY s)) in *.
  assert (Hprod0 : 0 <= n * p) by (apply Qmult_le_0_compat; assumption).
  assert (Hprod1 : n * p <= n * 100).
  { rewrite !(Qmult_comm n). apply Qmult_le_compat_r; assumption. }
  split; [field | split; qarith].
Qed.

Lemma text_anchor_in_canvas_witness :
  let s := ImageEditor.setText "Open now" ImageEditor.initialState in
  let img := Canvas2D.mkImage "" 1200 630 in
  exists ctx tx ty,
    In (ctx, Canvas2D.FillText "Open now" tx ty)
       (Canvas2D.drawn (ImageEditor.onload s img Canvas2D.createElement)) /\
    tx + tx == 1200 /\ 0 <= ty /\ ty <= 630.
Proof.
  intros s img.
  apply (text_anchor_in_canvas s img Canvas2D.createElement).
  - discriminate.
  - unfold fits_canvas; simpl. lia.
  - simpl. lia.
Defined.

(** ** The results of a generation *)

Lemma assign_same (prev : App.Results) p v : App.assign prev p v p = Some v.
Proof. unfold App.assign. destruct (Platform_eq_dec p p); congruence. Qed.

Lemma assign_other (prev : App.Results) p v q : q <> p -> App.assign prev p v q = prev q.
Proof. intros H. unfold App.assign. destruct (Platform_eq_dec q p); congruence. Qed.

Lemma fill_initialResults_outside (platforms : list Platform) (random : nat -> string) q :
  ~ In q platforms ->
  forall n acc, App.fill_initialResults platforms random n acc q = acc q.
Proof.
  induction platforms as [| p rest IH]; intros Hq n acc; simpl; [reflexivity |].
  rewrite IH by (intros H; apply Hq; right; exact H).
  apply assign_other. intros ->. apply Hq. left. reflexivity.
Qed.

Lemma fill_initialResults_inside (platforms : list Platform) (random : nat -> string) q :
  In q platforms ->
  forall n acc, exists k,
    (n <= k < n + List.length platforms)%nat /\
    App.fill_initialResults platforms random n acc q = Some (pending q (random k)).
Proof.
  induction platforms as [| p rest IH]; intros Hq n acc; simpl; [contradiction |].
  destruct (in_dec Platform_eq_dec q rest) as [Hin | Hout].
  - destruct (IH Hin (S n) (App.assign acc p (pending p (random n)))) as (k & Hk & E).
    exists k. split; [lia | exact E].
  - destruct Hq as [-> | Hin]; [| contradiction].
    exists n. split; [lia |].
    rewrite (fill_initialResults_outside rest random q Hout).
    apply assign_same.
Qed.

(** [generateContent] does nothing for a blank idea or without a profile;
    otherwise it replaces the results by one pending post (loading, empty
    content, no image, the platform's aspect ratio) for each selected
    platform and no post for any other platform, whatever the results were
    before. *)
Theorem generateContent_files_pending_posts (blank : bool)
    (onboardingData : option OnboardingData.t) (random : nat -> string) :
  (App.generateContent_begin blank onboardingData random = None <->
   blank = true \/ onboardingData = None) /\
  (forall results,
     App.generateContent_begin blank onboardingData random = Some results ->
     forall p,
       (In p (App.activePlatforms onboardingData) ->
        exists k, results p = Some (pending p (random k))) /\
       (~ In p (App.activePlatforms onboardingData) -> results p = None)).
Proof.
  split.
  - unfold App.generateContent_begin.
    destruct blank, onboardingData as [d |]; split;
      try discriminate; try tauto; intros [H | H]; discriminate.
  - intros results E p. unfold App.generateContent_begin in E.
    destruct blank; [discriminate |].
    destruct onboardingData as [d |]; [| discriminate].
    injection E as <-. split.
    + intros Hin.
      destruct (fill_initialResults_inside _ random p Hin 0%nat App.no_results)
        as (k & _ & E).
      exists k. exact E.
    + intros Hout. rewrite fill_initialResults_outside by exact Hout. reflexivity.
Qed.

Lemma settle_other p o prev q : q <> p -> App.settle p o prev q = prev q.
Proof. intros H. destruct o; simpl; apply assign_other, H. Qed.

(** The requests of two platforms may end in either order: the results
    are the same, and the end of one platform's requests touches no other
    platform's post. *)
Theorem settle_order_is_irrelevant (p q : Platform) (o1 o2 : App.Settled)
    (prev : App.Results) :
  p <> q ->
  (forall k, App.settle p o1 (App.settle q o2 prev) k =
             App.settle q o2 (App.settle p o1 prev) k) /\
  (forall k, k <> p -> App.settle p o1 prev k = prev k).
Proof.
  intros Hpq. split.
  - intros k.
    assert (Ep : App.settle q o2 prev p = prev p) by (apply settle_other; exact Hpq).
    assert (Eq : App.settle p o1 prev q = prev q)
      by (apply settle_other; congruence).
    destruct (Platform_eq_dec k p) as [-> | Hkp].
    + rewrite (settle_other q o2 _ p Hpq).
      destruct o1; simpl; rewrite !assign_same, Ep; reflexivity.
    + rewrite (settle_other p o1 _ k Hkp).
      destruct (Platform_eq_dec k q) as [-> | Hkq].
      * destruct o2; simpl; rewrite !assign_same, Eq; reflexivity.
      * rewrite !(settle_other q o2 _ k Hkq). symmetry. apply settle_other, Hkp.
  - intros k Hk. apply settle_other, Hk.
Qed.

Lemma settle_order_is_irrelevant_witness :
  let prev := App.assign (App.assign App.no_results Twitter (pending Twitter "a1"))
                Email (pending Email "b2") in
  let image := App.Fulfilled "text" "9am" "data:image/png;base64,AAAA" in
  let quota := App.Rejected (Some "quota"%string) in
  App.settle Twitter image (App.settle Email quota prev) Twitter =
  App.settle Email quota (App.settle Twitter image prev) Twitter /\
  App.settle Twitter image (App.settle Email quota prev) Email =
  App.settle Email quota (App.settle Twitter image prev) Email.
Proof.
  intros prev image quota.
  destruct (settle_order_is_irrelevant Twitter Email image quota prev) as [H _].
  - discriminate.
  - split; apply H.
Defined.

(** Once the requests of a platform have ended, in success or in failure,
    its card is no longer loading, whatever else ends before or after. *)
Theorem settled_posts_stop_loading (events : list (Platform * App.Settled))
    (prev : App.Results) (p : Platform) :
  In p (map fst events) ->
  exists r,
    fold_left (fun acc e => App.settle (fst e) (snd e) acc) events prev p = Some r /\
    PostResult.loading r = Some false.
Proof.
  revert prev. induction events as [| e events IH] using rev_ind; intros prev Hin.
  - contradiction.
  - rewrite fold_left_app; simpl.
    destruct (Platform_eq_dec p (fst e)) as [-> | Hne].
    + destruct (snd e); simpl; rewrite assign_same; eexists; split; reflexivity.
    + rewrite settle_other by exact Hne. apply IH.
      rewrite map_app in Hin. apply in_app_or in Hin.
      destruct Hin as [H | [H | []]]; [exact H | congruence].
Qed.

Lemma settled_posts_stop_loading_witness :
  exists r,
    fold_left (fun acc e => App.settle (fst e) (snd e) acc)
      [(Instagram, App.Rejected None); (LinkedIn, App.Fulfilled "t" "noon" "img")]
      (App.assign App.no_results Instagram (pending Instagram "k3")) Instagram = Some r /\
    PostResult.loading r = Some false.
Proof.
  apply settled_posts_stop_loading. simpl. left. reflexivity.
Defined.

Lemma sync_step_lookup (imageUrl : string) (updated : App.Results) p q :
  sync_step imageUrl updated p q =
  if Platform_eq_dec q p then option_map (with_image imageUrl) (updated q)
  else updated q.
Proof.
  unfold sync_step. destruct (Platform_eq_dec q p) as [-> | Hne].
  - destruct (updated p) eqn:E; [apply assign_same | exact E].
  - destruct (updated p); [apply assign_other, Hne | reflexivity].
Qed.

Lemma with_image_twice (imageUrl : string) (o : option PostResult.t) :
  option_map (with_image imageUrl) (option_map (with_image imageUrl) o) =
  option_map (with_image imageUrl) o.
Proof. destruct o; reflexivity. Qed.

Lemma handleSyncThisImage_lookup (platforms : list Platform) (imageUrl : string) q :
  forall prev,
    App.handleSyncThisImage platforms imageUrl prev q =
    if in_dec Platform_eq_dec q platforms
    then option_map (with_image imageUrl) (prev q)
    else prev q.
Proof.
  change (App.handleSyncThisImage platforms imageUrl)
    with (fold_left (sync_step imageUrl) platforms).
  induction platforms as [| p rest IH]; intros prev; [reflexivity |].
  simpl fold_left. rewrite IH, sync_step_lookup. clear IH.
  destruct (in_dec Platform_eq_dec q rest) as [Hin | Hout];
    destruct (in_dec Platform_eq_dec q (p :: rest)) as [Hin' | Hout'];
    destruct (Platform_eq_dec q p) as [-> | Hne];
    try reflexivity; try apply with_image_twice.
  - exfalso. apply Hout'. right. exact Hin.
  - exfalso. apply Hout'. right. exact Hin.
  - exfalso. destruct Hin' as [E | Hin']; [congruence | contradiction].
  - exfalso. apply Hout'. left. reflexivity.
Qed.

(** "Sync All" gives the image to every post that exists for a selected
    platform and changes nothing else of it; it creates no post, and posts
    of platforms that are not selected are left alone. *)
Theorem sync_gives_the_image_to_existing_posts (platforms : list Platform)
    (imageUrl : string) (prev : App.Results) (q : Platform) :
  let synced := App.handleSyncThisImage platforms imageUrl prev in
  (In q platforms -> synced q = option_map (with_image imageUrl) (prev q)) /\
  (~ In q platforms -> synced q = prev q) /\
  (synced q = None <-> prev q = None) /\
  App.handleSyncThisImage platforms imageUrl synced q = synced q.
Proof.
  intros synced. unfold synced. rewrite !handleSyncThisImage_lookup.
  destruct (in_dec Platform_eq_dec q platforms) as [Hin | Hout].
  - split; [reflexivity | split; [contradiction | split]].
    + destruct (prev q); simpl; split; congruence.
    + destruct (prev q); reflexivity.
  - split; [contradiction | split; [reflexivity | split; [tauto | reflexivity]]].
Qed.

Lemma same_post_refl a : same_post a a.
Proof. repeat split. Qed.

Lemma same_post_trans a b c : same_post a b -> same_post b c -> same_post a c.
Proof.
  intros (H1 & H2 & H3) (H4 & H5 & H6). repeat split; congruence.
Qed.

Lemma apply_action_keeps_post (a : ResultsAction) (prev : App.Results) p r0 :
  prev p = Some r0 ->
  exists r, apply_action prev a p = Some r /\ same_post r0 r.
Proof.
  intros E.
  assert (Hupd : forall q v,
            (q = p -> same_post r0 v) ->
            exists r, App.assign prev q v p = Some r /\ same_post r0 r).
  { intros q v Hv. destruct (Platform_eq_dec p q) as [<- | Hne].
    - rewrite assign_same. exists v. split; [reflexivity | apply Hv; reflexivity].
    - rewrite assign_other by exact Hne. exists r0. split; [exact E | apply same_post_refl]. }
  destruct a as [q o | q f | q c | q u | platforms u]; simpl.
  - destruct o; simpl; apply Hupd; intros ->; rewrite E; repeat split.
  - apply Hupd; intros ->; rewrite E; repeat split.
  - apply Hupd; intros ->; rewrite E; repeat split.
  - apply Hupd; intros ->; rewrite E; repeat split.
  - rewrite handleSyncThisImage_lookup, E.
    destruct (in_dec Platform_eq_dec p platforms); simpl; eexists; split;
      try reflexivity; repeat split.
Qed.

(** Nothing the application does to the results after a generation has
    started (a request ending, feedback, an edited text, a new image, a
    sync) removes a post or changes its identifier, its platform or its
    aspect ratio. *)
Theorem posts_keep_their_identity (actions : list ResultsAction)
    (prev : App.Results) (p : Platform) (r0 : PostResult.t) :
  prev p = Some r0 ->
  exists r, fold_left apply_action actions prev p = Some r /\ same_post r0 r.
Proof.
  revert prev r0. induction actions as [| a actions IH]; intros prev r0 E; simpl.
  - exists r0. split; [exact E | apply same_post_refl].
  - destruct (apply_action_keeps_post a prev p r0 E) as (r1 & E1 & H1).
    destruct (IH _ r1 E1) as (r & Er & Hr).
    exists r. split; [exact Er | exact (same_post_trans _ _ _ H1 Hr)].
Qed.

Lemma posts_keep_their_identity_witness :
  exists r,
    fold_left apply_action
      [Settle Facebook (App.Fulfilled "Hello" "6pm" "data:,");
       SyncImage [Facebook; Email] "data:image/png;base64,QUJD";
       ChangeContent Facebook "Hello!";
       Settle Facebook (App.Rejected None)]
      (App.assign App.no_results Facebook (pending Facebook "x7")) Facebook = Some r /\
    same_post (pending Facebook "x7") r.
Proof.
  apply posts_keep_their_identity. apply assign_same.
Defined.

(** ** The calendar *)

Lemma onDelete_absent (id : string) (prev : list ScheduledPost.t) :
  (forall sp, In sp prev -> ScheduledPost.id sp <> id) ->
  App.onDelete id prev = prev.
Proof.
  induction prev as [| sp prev IH]; intros Hfresh; simpl; [reflexivity |].
  destruct (String.eqb_spec (ScheduledPost.id sp) id) as [E | _]; simpl.
  - exfalso. apply (Hfresh sp); [left; reflexivity | exact E].
  - f_equal. apply IH. intros sp' Hin. apply Hfresh. right. exact Hin.
Qed.

Lemma onDelete_app (id : string) (a b : list ScheduledPost.t) :
  App.onDelete id (a ++ b) = App.onDelete id a ++ App.onDelete id b.
Proof. unfold App.onDelete. apply filter_app. Qed.

(** Scheduling a post and deleting the new entry gives back the calendar
    as it was, provided the identifier drawn for the entry was not in use;
    in any case the entry goes, together with the older entries that bear
    the same identifier. *)
Theorem schedule_then_delete (post : PostResult.t) (date random : string)
    (prev : list ScheduledPost.t) :
  App.onDelete random (App.handleSchedule post date random prev) =
    App.onDelete random prev /\
  ((forall sp, In sp prev -> ScheduledPost.id sp <> random) ->
   App.onDelete random (App.handleSchedule post date random prev) = prev).
Proof.
  assert (E : App.onDelete random (App.handleSchedule post date random prev) =
              App.onDelete random prev).
  { unfold App.handleSchedule. rewrite onDelete_app. simpl.
    rewrite String.eqb_refl. simpl. apply app_nil_r. }
  split; [exact E |].
  intros Hfresh. rewrite E. apply onDelete_absent, Hfresh.
Qed.

(** Deleting removes every entry that bears the identifier and no other
    entry, keeps the others in their order, and deletions can be made in
    any order. *)
Theorem onDelete_removes_exactly (id id' : string) (prev : list ScheduledPost.t) :
  (forall sp, In sp (App.onDelete id prev) <->
              In sp prev /\ ScheduledPost.id sp <> id) /\
  (List.length (App.onDelete id prev) <= List.length prev)%nat /\
  App.onDelete id (App.onDelete id prev) = App.onDelete id prev /\
  App.onDelete id (App.onDelete id' prev) = App.onDelete id' (App.onDelete id prev).
Proof.
  split; [| split; [| split]].
  - intros sp. unfold App.onDelete. rewrite filter_In.
    destruct (String.eqb_spec (ScheduledPost.id sp) id); simpl; intuition congruence.
  - unfold App.onDelete. apply filter_length_le.
  - apply onDelete_absent. intros sp Hin.
    unfold App.onDelete in Hin. apply filter_In in Hin. destruct Hin as [_ H].
    destruct (String.eqb_spec (ScheduledPost.id sp) id); [discriminate | assumption].
  - unfold App.onDelete. induction prev as [| sp prev IH]; simpl; [reflexivity |].
    destruct (String.eqb (ScheduledPost.id sp) id') eqn:E1;
      destruct (String.eqb (ScheduledPost.id sp) id) eqn:E2; simpl;
      rewrite ?E1, ?E2; simpl; rewrite IH; reflexivity.
Qed.

Lemma confirmSchedule_cases results p val random prev :
  PlatformCard.confirmSchedule results p val random prev = prev \/
  exists post,
    val <> ""%string /\ results p = Some post /\
    PlatformCard.confirmSchedule results p val random prev =
      App.handleSchedule post val random prev.
Proof.
  unfold PlatformCard.confirmSchedule, App.onSchedule.
  destruct val as [| a val]; [left; reflexivity |].
  destruct (results p) as [post |]; [| left; reflexivity].
  right. exists post. repeat split. discriminate.
Qed.

Lemma calendar_step_dated (prev : list ScheduledPost.t) (a : CalendarAction) :
  Forall (fun sp => ScheduledPost.scheduledAt sp <> ""%string) prev ->
  Forall (fun sp => ScheduledPost.scheduledAt sp <> ""%string) (calendar_step prev a).
Proof.
  intros H. destruct a as [results p val random | id]; simpl.
  - destruct (confirmSchedule_cases results p val random prev)
      as [-> | (post & Hval & _ & ->)]; [exact H |].
    unfold App.handleSchedule. apply Forall_app. split; [exact H |].
    constructor; [exact Hval | constructor].
  - rewrite Forall_forall in *. intros sp Hin.
    unfold App.onDelete in Hin. apply filter_In in Hin. apply H, Hin.
Qed.

Lemma calendar_step_length (prev : list ScheduledPost.t) (a : CalendarAction) :
  (List.length (calendar_step prev a) <=
   List.length prev + (if is_confirm a then 1 else 0))%nat.
Proof.
  destruct a as [results p val random | id]; simpl.
  - destruct (confirmSchedule_cases results p val random prev)
      as [-> | (post & _ & _ & ->)]; [lia |].
    unfold App.handleSchedule. rewrite length_app. simpl. lia.
  - pose proof (filter_length_le
                  (fun p => negb (String.eqb (ScheduledPost.id p) id)) prev) as H.
    unfold App.onDelete. lia.
Qed.

(** Whatever dates are confirmed and whatever entries are deleted, every
    entry of the calendar has a date, and the calendar holds no more
    entries than dates were confirmed: an empty date or a platform without
    a post schedules nothing. *)
Theorem calendar_entries_are_dated (actions : list CalendarAction) :
  let calendar := fold_left calendar_step actions [] in
  Forall (fun sp => ScheduledPost.scheduledAt sp <> ""%string) calendar /\
  (List.length calendar <= List.length (filter is_confirm actions))%nat.
Proof.
  assert (H : forall prev,
            Forall (fun sp => ScheduledPost.scheduledAt sp <> ""%string) prev ->
            Forall (fun sp => ScheduledPost.scheduledAt sp <> ""%string)
              (fold_left calendar_step actions prev) /\
            (List.length (fold_left calendar_step actions prev) <=
             List.length prev + List.length (filter is_confirm actions))%nat).
  { induction actions as [| a actions IH]; intros prev Hprev; simpl.
    - split; [exact Hprev | lia].
    - destruct (IH _ (calendar_step_dated prev a Hprev)) as [Hd Hl].
      split; [exact Hd |].
      pose proof (calendar_step_length prev a) as Hs.
      destruct (is_confirm a); simpl; lia. }
  intros calendar. destruct (H [] (Forall_nil _)) as [Hd Hl].
  split; [exact Hd | exact Hl].
Qed.

(** ** The platforms of the profile *)

Lemma includes_In (l : list Platform) p : OnboardingView.includes l p = true <-> In p l.
Proof.
  unfold OnboardingView.includes. rewrite existsb_exists. split.
  - intros (x & Hin & E). destruct (Platform_eq_dec x p); [subst; exact Hin | discriminate].
  - intros Hin. exists p. split; [exact Hin |].
    destruct (Platform_eq_dec p p); congruence.
Qed.

Lemma togglePlatform_absent (l : list Platform) p :
  ~ In p l -> OnboardingView.togglePlatform p l = l ++ [p].
Proof.
  intros H. unfold OnboardingView.togglePlatform.
  destruct (OnboardingView.includes l p) eqn:E; [| reflexivity].
  apply includes_In in E. contradiction.
Qed.

Lemma togglePlatform_present (l : list Platform) p :
  In p l ->
  OnboardingView.togglePlatform p l =
  filter (fun x => if Platform_eq_dec x p then false else true) l.
Proof.
  intros H. unfold OnboardingView.togglePlatform.
  apply includes_In in H. rewrite H. reflexivity.
Qed.

Lemma In_without (l : list Platform) p q :
  In q (filter (fun x => if Platform_eq_dec x p then false else true) l) <->
  In q l /\ q <> p.
Proof.
  rewrite filter_In. destruct (Platform_eq_dec q p); intuition congruence.
Qed.

(** A click on a platform of the form selects it when it was not selected
    and unselects it when it was, and changes the selection of no other
    platform. *)
Theorem togglePlatform_flips_one (p q : Platform) (l : list Platform) :
  (In p (OnboardingView.togglePlatform p l) <-> ~ In p l) /\
  (q <> p -> (In q (OnboardingView.togglePlatform p l) <-> In q l)).
Proof.
  destruct (in_dec Platform_eq_dec p l) as [Hin | Hout].
  - rewrite (togglePlatform_present l p Hin). split.
    + rewrite In_without. tauto.
    + intros Hq. rewrite In_without. tauto.
  - rewrite (togglePlatform_absent l p Hout). split.
    + rewrite in_app_iff. simpl. tauto.
    + intros Hq. rewrite in_app_iff. simpl. intuition congruence.
Qed.

Lemma NoDup_without (l : list Platform) p :
  NoDup l -> NoDup (filter (fun x => if Platform_eq_dec x p then false else true) l).
Proof. apply NoDup_filter. Qed.

Lemma togglePlatform_NoDup (p : Platform) (l : list Platform) :
  NoDup l -> NoDup (OnboardingView.togglePlatform p l).
Proof.
  intros H. destruct (in_dec Platform_eq_dec p l) as [Hin | Hout].
  - rewrite (togglePlatform_present l p Hin). apply NoDup_without, H.
  - rewrite (togglePlatform_absent l p Hout).
    apply NoDup_app; [exact H | repeat constructor; intros [] |].
    intros x Hx [<- | []]. contradiction.
Qed.

Lemma all_platforms (p : Platform) : In p [LinkedIn; Twitter; Instagram; Facebook; Email].
Proof. destruct p; simpl; tauto. Qed.

(** No run of clicks makes a platform appear twice: from a selection
    without duplicates, as the default one is, every selection reached has
    none, and so never holds more than the five platforms. *)
Theorem selection_has_no_duplicates (start clicks : list Platform) :
  NoDup start ->
  let selection :=
    fold_left (fun l p => OnboardingView.togglePlatform p l) clicks start in
  NoDup selection /\
  (List.length selection <= 5)%nat /\
  NoDup OnboardingView.defaultPlatforms.
Proof.
  intros Hstart selection.
  assert (H : NoDup selection).
  { unfold selection. clear selection. revert start Hstart.
    induction clicks as [| p clicks IH]; intros l Hl; simpl; [exact Hl |].
    apply IH, togglePlatform_NoDup, Hl. }
  split; [exact H | split].
  - change 5%nat with (List.length [LinkedIn; Twitter; Instagram; Facebook; Email]).
    apply NoDup_incl_length; [exact H |].
    intros p _. apply all_platforms.
  - unfold OnboardingView.defaultPlatforms.
    repeat constructor; simpl; intuition discriminate.
Qed.

Lemma selection_has_no_duplicates_witness :
  NoDup
    (fold_left (fun l p => OnboardingView.togglePlatform p l)
       [Email; Twitter; Email; Twitter; Facebook] OnboardingView.defaultPlatforms).
Proof.
  apply (selection_has_no_duplicates OnboardingView.defaultPlatforms
           [Email; Twitter; Email; Twitter; Facebook]).
  unfold OnboardingView.defaultPlatforms.
  repeat constructor; simpl; intuition discriminate.
Defined.

(** Two clicks on the same platform: a platform that was not selected is
    unselected again and the selection is the list it was; a platform that
    was selected is selected again, now at the end of the list. *)
Theorem togglePlatform_twice (p : Platform) (l : list Platform) :
  (~ In p l ->
   OnboardingView.togglePlatform p (OnboardingView.togglePlatform p l) = l) /\
  (In p l ->
   OnboardingView.togglePlatform p (OnboardingView.togglePlatform p l) =
   filter (fun x => if Platform_eq_dec x p then false else true) l ++ [p]).
Proof.
  split.
  - intros Hout. rewrite (togglePlatform_absent l p Hout).
    rewrite togglePlatform_present by (apply in_or_app; right; left; reflexivity).
    rewrite filter_app. simpl. destruct (Platform_eq_dec p p); [| congruence].
    rewrite app_nil_r.
    clear - Hout. induction l as [| x l IH]; simpl; [reflexivity |].
    destruct (Platform_eq_dec x p) as [-> | _].
    + exfalso. apply Hout. left. reflexivity.
    + f_equal. apply IH. intros H. apply Hout. right. exact H.
  - intros Hin. rewrite (togglePlatform_present l p Hin).
    apply togglePlatform_absent. rewrite In_without. tauto.
Qed.

(** ** The views of the application *)

Lemma act_keeps_profile (s : App.Profile) (a : App.Action) :
  (App.view s <> App.onboarding -> App.onboardingData s <> None) ->
  (App.view (App.act s a) <> App.onboarding ->
   App.onboardingData (App.act s a) <> None) /\
  (App.onboardingData s <> None -> App.onboardingData (App.act s a) <> None).
Proof.
  intros Inv. destruct s as [v d]. unfold App.act; simpl in *.
  destruct v, a; simpl; try destruct d; simpl; split; intros; try congruence;
    try (apply Inv; discriminate).
Qed.

(** The generator and the calendar are only ever shown with a profile:
    after mounting (with or without a saved profile) and any run of form
    submissions, cancellations and navigation, a view other than the
    onboarding form comes with a profile, and a profile once there is never
    lost. *)
Theorem views_need_a_profile (saved : option OnboardingData.t)
    (actions : list App.Action) :
  let s := fold_left App.act actions (App.mount saved) in
  (App.view s <> App.onboarding -> App.onboardingData s <> None) /\
  (saved <> None -> App.onboardingData s <> None).
Proof.
  assert (H : forall s0,
            (App.view s0 <> App.onboarding -> App.onboardingData s0 <> None) ->
            let s := fold_left App.act actions s0 in
            (App.view s <> App.onboarding -> App.onboardingData s <> None) /\
            (App.onboardingData s0 <> None -> App.onboardingData s <> None)).
  { induction actions as [| a actions IH]; intros s0 Inv; simpl.
    - split; [exact Inv | tauto].
    - destruct (act_keeps_profile s0 a Inv) as [Inv' Keep].
      destruct (IH _ Inv') as [Hv Hk]. split; [exact Hv | tauto]. }
  intros s.
  assert (Inv0 : App.view (App.mount saved) <> App.onboarding ->
                 App.onboardingData (App.mount saved) <> None)
    by (destruct saved; simpl; congruence).
  destruct (H _ Inv0) as [Hv Hk]. split; [exact Hv |].
  intros Hs. apply Hk. destruct saved; simpl; congruence.
Qed.

(** ** The image of a response *)

Lemma first_inline_skips (before : list geminiService.Part) rest :
  Forall (fun part => has_inline part = false) before ->
  geminiService.first_inline (before ++ rest) = geminiService.first_inline rest.
Proof.
  induction 1 as [| part before Hpart _ IH]; simpl; [reflexivity |].
  unfold has_inline in Hpart.
  destruct (geminiService.inlineData part); [discriminate | exact IH].
Qed.

Lemma first_inline_none (ps : list geminiService.Part) :
  existsb has_inline ps = false -> geminiService.first_inline ps = ""%string.
Proof.
  induction ps as [| part ps IH]; simpl; [reflexivity |].
  unfold has_inline at 1.
  destruct (geminiService.inlineData part); simpl; [discriminate | exact IH].
Qed.

Lemma first_inline_some (ps : list geminiService.Part) :
  existsb has_inline ps = true ->
  exists rest, geminiService.first_inline ps = ("data:" ++ rest)%string.
Proof.
  induction ps as [| part ps IH]; simpl; [discriminate |].
  unfold has_inline at 1.
  destruct (geminiService.inlineData part) as [d |]; simpl.
  - intros _. eexists. reflexivity.
  - exact IH.
Qed.

(** The image handed back is that of the first part of the response that
    carries inline data, as a data URL of its type and its bytes; parts
    before it without inline data and all parts after it are ignored. *)
Theorem image_is_first_inline_part (before after : list geminiService.Part)
    (part : geminiService.Part) (d : geminiService.InlineData)
    (finishReason : option string) :
  Forall (fun x => has_inline x = false) before ->
  geminiService.inlineData part = Some d ->
  geminiService.imageUrl_of
    (Some (geminiService.mkCandidate (Some (before ++ part :: after)) finishReason)) =
  inl ("data:" ++ geminiService.mimeType d ++ ";base64," ++ geminiService.data d)%string.
Proof.
  intros Hbefore Hpart. unfold geminiService.imageUrl_of. simpl.
  rewrite (first_inline_skips before _ Hbefore). simpl. rewrite Hpart. reflexivity.
Qed.

Lemma image_is_first_inline_part_witness :
  geminiService.imageUrl_of
    (Some (geminiService.mkCandidate
             (Some [geminiService.mkPart None (Some "Here is your image"%string);
                    geminiService.mkPart
                      (Some (geminiService.mkInline "image/png" "iVBORw0KGgo="))
                      None;
                    geminiService.mkPart
                      (Some (geminiService.mkInline "image/jpeg" "AAAA"))
                      None])
             (Some "STOP"%string))) =
  inl "data:image/png;base64,iVBORw0KGgo="%string.
Proof.
  apply (image_is_first_inline_part
           [geminiService.mkPart None (Some "Here is your image"%string)]
           [geminiService.mkPart (Some (geminiService.mkInline "image/jpeg" "AAAA")) None]
           (geminiService.mkPart
              (Some (geminiService.mkInline "image/png" "iVBORw0KGgo=")) None)
           (geminiService.mkInline "image/png" "iVBORw0KGgo=")).
  - repeat constructor.
  - reflexivity.
Defined.

(** A response yields an image exactly when one of its parts carries
    inline data.  Without one (no candidate, no content, no parts, or text
    parts only) the service fails with a message that names the finish
    reason, or [Unknown] when the reason is missing or empty; an image URL
    is never empty. *)
Theorem no_inline_part_is_an_error (candidate : option geminiService.Candidate) :
  (existsb has_inline (parts_of candidate) = false ->
   geminiService.imageUrl_of candidate =
   inr ("The AI service didn't produce an image (Reason: "
        ++ geminiService.reason_of candidate
        ++ "). This usually happens when the prompt is too vague or triggers a safety filter. Try describing the scene without using text or logos.")%string) /\
  (existsb has_inline (parts_of candidate) = true ->
   exists rest, geminiService.imageUrl_of candidate = inl ("data:" ++ rest)%string) /\
  geminiService.reason_of candidate <> ""%string /\
  geminiService.imageUrl_of candidate <> inl ""%string.
Proof.
  assert (E : geminiService.imageUrl_of candidate =
              match geminiService.first_inline (parts_of candidate) with
              | EmptyString =>
                  inr ("The AI service didn't produce an image (Reason: "
                       ++ geminiService.reason_of candidate
                       ++ "). This usually happens when the prompt is too vague or triggers a safety filter. Try describing the scene without using text or logos.")%string
              | String _ _ => inl (geminiService.first_inline (parts_of candidate))
              end).
  { unfold geminiService.imageUrl_of, parts_of.
    destruct candidate as [[[ps |] fr] |]; reflexivity. }
  split; [| split; [| split]].
  - intros H. rewrite E, (first_inline_none _ H). reflexivity.
  - intros H. destruct (first_inline_some _ H) as (rest & Hrest).
    exists rest. rewrite E, Hrest. reflexivity.
  - unfold geminiService.reason_of.
    destruct candidate as [[ps [[| a r] |]] |]; discriminate.
  - rewrite E. destruct (geminiService.first_inline (parts_of candidate)); discriminate.
Qed.

(** ** The uploaded reference image *)

Lemma split_comma_no_comma (s : string) :
  has_comma s = false -> App.split_comma s = [s].
Proof.
  induction s as [| a rest IH]; simpl; [reflexivity |].
  intros H. apply orb_false_iff in H. destruct H as [Ha Hrest].
  rewrite Ha, (IH Hrest). reflexivity.
Qed.

Lemma split_comma_prefix (prefix rest : string) :
  has_comma prefix = false ->
  App.split_comma (prefix ++ String "," rest) = prefix :: App.split_comma rest.
Proof.
  induction prefix as [| a prefix IH]; simpl; [reflexivity |].
  intros H. apply orb_false_iff in H. destruct H as [Ha Hprefix].
  rewrite Ha, (IH Hprefix). reflexivity.
Qed.

(** From a data URL whose header holds no comma, the upload keeps what
    stands between the first comma and the next one: the whole payload when
    the payload holds no comma (as base64 does not).  A result without any
    comma leaves the data undefined. *)
Theorem upload_keeps_payload (header payload more : string) :
  has_comma header = false ->
  has_comma payload = false ->
  App.base64String (header ++ "," ++ payload) = Some payload /\
  App.base64String (header ++ "," ++ payload ++ "," ++ more) = Some payload /\
  App.base64String header = None.
Proof.
  intros Hh Hp. unfold App.base64String. simpl append. split; [| split].
  - rewrite (split_comma_prefix header payload Hh), (split_comma_no_comma payload Hp).
    reflexivity.
  - rewrite (split_comma_prefix header _ Hh), (split_comma_prefix payload more Hp).
    reflexivity.
  - rewrite (split_comma_no_comma header Hh). reflexivity.
Qed.

Lemma upload_keeps_payload_witness :
  App.base64String "data:image/jpeg;base64,/9j/4AAQSkZJRg==" = Some "/9j/4AAQSkZJRg=="%string.
Proof.
  destruct (upload_keeps_payload "data:image/jpeg;base64" "/9j/4AAQSkZJRg==" "")
    as (H & _ & _).
  - reflexivity.
  - reflexivity.
  - exact H.
Defined.
